(** * SOLCSPEC [parser_utils.py]: expression rendering over Lark parse trees

    A shallow embedding of the rendering helpers of [parser_utils.py]
    (token flattening, symbol-aware call rendering, call-argument
    splitting, rule-parameter extraction and the precedence-aware
    formatter [fmt]) together with the properties of its specification. *)

From Stdlib Require Import ZArith Ascii String List Lia.
From stdpp Require Import gmap strings list.

Local Open Scope Z_scope.
Set Warnings "-register-all".

(** ** Python strings

    A Python [str] is modelled as a Stdlib [string]; characters are
    restricted to the ASCII range. *)

Module PyStr.

(** [sep.join(parts)] *)
Definition join (sep : string) (parts : list string) : string :=
  String.concat sep parts.

(** [s.replace(old, new)] for a non-empty [old] (every call site passes
    a two-character pattern): occurrences are replaced left to right and
    do not overlap.  [skip] counts the characters of a matched occurrence
    that are still to be consumed. *)
Fixpoint replace_go (old new : string) (skip : nat) (s : string) : string :=
  match s with
  | EmptyString => EmptyString
  | String c s' =>
      match skip with
      | S k => replace_go old new k s'
      | O =>
          if String.prefix old s
          then new +:+ replace_go old new (Nat.pred (String.length old)) s'
          else String c (replace_go old new O s')
      end
  end.

Definition replace (old new s : string) : string := replace_go old new O s.

(** [str.isspace] on the ASCII range. *)
Definition is_space (c : ascii) : bool :=
  let n := nat_of_ascii c in
  ((9 <=? n) && (n <=? 13))%nat || ((28 <=? n) && (n <=? 32))%nat.

Fixpoint lstrip (s : string) : string :=
  match s with
  | EmptyString => EmptyString
  | String c s' => if is_space c then lstrip s' else s
  end.

Fixpoint rstrip (s : string) : string :=
  match s with
  | EmptyString => EmptyString
  | String c s' =>
      match rstrip s' with
      | EmptyString => if is_space c then EmptyString else String c EmptyString
      | r => String c r
      end
  end.

(** [s.strip()] *)
Definition strip (s : string) : string := lstrip (rstrip s).

(** Truthiness of a [str]: non-empty. *)
Definition truthy (s : string) : bool :=
  match s with EmptyString => false | _ => true end.

(** The chain [.replace(" ,", ",").replace("( ", "(").replace(" )", ")")
    .replace(" .", ".")] shared by every flattener. *)
Definition fixups (s : string) : string :=
  replace " ." "." (replace " )" ")" (replace "( " "(" (replace " ," "," s))).

End PyStr.

(** ** The node model: Lark [Token] and [Tree] *)

Inductive Node : Type :=
| Token (type value : string)
| Tree (data : string) (children : list Node).

Definition is_Token (n : Node) : bool :=
  match n with Token _ _ => true | Tree _ _ => false end.

Definition is_Tree (n : Node) : bool :=
  match n with Token _ _ => false | Tree _ _ => true end.

(** [isinstance(ch, Tree) and ch.data == d] *)
Definition is_tree_named (d : string) (n : Node) : bool :=
  match n with Token _ _ => false | Tree d' _ => String.eqb d' d end.

(** [isinstance(ch, Token) and ch.type == ty] *)
Definition is_token_typed (ty : string) (n : Node) : bool :=
  match n with Token ty' _ => String.eqb ty' ty | Tree _ _ => false end.

(** [isinstance(ch, Token) and ch.value == ","] *)
Definition is_comma (n : Node) : bool :=
  match n with Token _ v => String.eqb v "," | Tree _ _ => false end.

(** [tok.value] of a node known to be a [Token]. *)
Definition token_value (n : Node) : string :=
  match n with Token _ v => v | Tree _ _ => EmptyString end.

(** [node.children] of a node known to be a [Tree]. *)
Definition tree_children (n : Node) : list Node :=
  match n with Token _ _ => [] | Tree _ ch => ch end.

(** A [Token] is a [str] whose content is its value, so it is truthy
    exactly when that value is non-empty. *)
Definition token_truthy (n : Node) : bool := PyStr.truthy (token_value n).

(** Structural equality, [Tree.__eq__]: same [data], equal children. *)
Fixpoint node_eqb (a b : Node) {struct a} : bool :=
  match a, b with
  | Token t1 v1, Token t2 v2 => String.eqb t1 t2 && String.eqb v1 v2
  | Tree d1 c1, Tree d2 c2 =>
      String.eqb d1 d2 &&
      (fix all2 (l1 l2 : list Node) {struct l1} : bool :=
         match l1, l2 with
         | [], [] => true
         | x :: l1', y :: l2' => node_eqb x y && all2 l1' l2'
         | _, _ => false
         end) c1 c2
  | _, _ => false
  end.

(** Induction over nodes with the hypothesis available for every child. *)
Section NodeInd.
Variable P : Node -> Prop.
Hypothesis HToken : forall ty v, P (Token ty v).
Hypothesis HTree : forall d ch, Forall P ch -> P (Tree d ch).

Fixpoint Node_ind' (n : Node) : P n :=
  match n with
  | Token ty v => HToken ty v
  | Tree d ch =>
      HTree d ch
        ((fix go (l : list Node) : Forall P l :=
            match l with
            | [] => @List.Forall_nil Node P
            | x :: l' => @List.Forall_cons Node P x l' (Node_ind' x) (go l')
            end) ch)
  end.
End NodeInd.

(** [Tree.scan_values(pred)]: the leaves satisfying [pred], left to right. *)
Fixpoint scan_values (pred : Node -> bool) (n : Node) : list Node :=
  match n with
  | Token _ _ => if pred n then [n] else []
  | Tree _ ch => flat_map (scan_values pred) ch
  end.

(** [Tree.iter_subtrees_topdown()]: every [Tree] below (and including) the
    node, parents before children, siblings left to right. *)
Fixpoint iter_subtrees_topdown (n : Node) : list Node :=
  match n with
  | Token _ _ => []
  | Tree _ ch => n :: flat_map iter_subtrees_topdown ch
  end.

(** [next((f(x) for x in l if ...), None)] *)
Section Next.
Context {A B : Type} (f : A -> option B).
Fixpoint next_map (l : list A) : option B :=
  match l with
  | [] => None
  | x :: l' => match f x with Some y => Some y | None => next_map l' end
  end.
End Next.

(** [l.index(x)] (first position holding a node equal to [x]). *)
Fixpoint py_index (x : Node) (l : list Node) : option nat :=
  match l with
  | [] => None
  | y :: l' => if node_eqb y x then Some O else option_map S (py_index x l')
  end.

(** ** Token flattening *)

Definition _flatten_tokens_only (x : Node) : string :=
  match x with
  | Token _ v => v
  | Tree _ _ =>
      let toks := map token_value (scan_values is_Token x) in
      PyStr.strip (PyStr.fixups (PyStr.join " " toks))
  end.

(** ** Symbol table

    [sol_symbols] is a dict read only through
    [sol_symbols.get("state_vars", set())] and
    [sol_symbols.get("functions", set())]: a missing key is the empty set. *)

Record SymbolTable : Type := {
  state_vars : gset string;
  functions : gset string
}.

(** The literal [{}]. *)
Definition no_symbols : SymbolTable := {| state_vars := ∅; functions := ∅ |}.

Definition _render_call (name : string) (args : list string)
    (sol_symbols : SymbolTable) : string :=
  if bool_decide (name ∈ state_vars sol_symbols) then
    match args with
    | [] => name
    | [a] => name +:+ "[" +:+ a +:+ "]"
    | _ => (name +:+ "[") +:+ PyStr.join "][" args +:+ "]"
    end
  else (name +:+ "(") +:+ PyStr.join ", " args +:+ ")".

(** ** Splitting on comma tokens

    The loop shared by the renderer, the call scan and the splitter:
<<
    cur = []
    for ch in children:
        if isinstance(ch, Token) and ch.value == ",":
            if cur: args.append(render(cur)); cur = []
        else:
            cur.append(ch)
    if cur: args.append(render(cur))
>>
    [comma_runs] returns the successive values of [cur] that are rendered. *)
Section CommaRuns.
Context {A : Type} (comma : A -> bool).

Fixpoint comma_runs (l : list A) (cur : list A) : list (list A) :=
  match l with
  | [] => match cur with [] => [] | _ => [cur] end
  | ch :: l' =>
      if comma ch then
        match cur with
        | [] => comma_runs l' []
        | _ => cur :: comma_runs l' []
        end
      else comma_runs l' (cur ++ [ch])
  end.
End CommaRuns.

(** The tail of every flattener: join with single spaces, apply the
    cosmetic fix-ups, strip. *)
Definition join_fixup (parts : list string) : string :=
  PyStr.strip (PyStr.fixups (PyStr.join " " parts)).

(** ** Callee name of a [function_call] node

    The first component of [_get_function_call_info]: the last [ID] token
    among the children that precede the [exprs] child. *)

Definition exprs_node_of (children : list Node) : option Node :=
  find (is_tree_named "exprs") children.

Definition cutoff_idx (children : list Node) : nat :=
  match exprs_node_of children with
  | Some exprs_node => default (length children) (py_index exprs_node children)
  | None => length children
  end.

Definition ids_before (children : list Node) : list string :=
  map token_value
    (List.filter (is_token_typed "ID") (firstn (cutoff_idx children) children)).

Definition func_name_of (children : list Node) : option string :=
  last (ids_before children).

(** ** Symbol-aware rendering

    The argument loop of the [function_call] branch collects nodes in [cur]
    and renders each run with [_flatten_expr_with_symbols_list]; here every
    child of [exprs] is paired with its rendering first, so that the
    recursion stays on direct sub-terms, and a run is rendered from the
    second components ([call_args] below is the source's form, and
    [next_exprs_args] shows that the two agree). *)

Definition render_runs (rendered : list (Node * string)) : list string :=
  map (fun run => join_fixup (map snd run))
      (comma_runs (fun p => is_comma (fst p)) rendered []).

Fixpoint _flatten_expr_with_symbols (sol_symbols : SymbolTable)
    (tree_or_tok : Node) {struct tree_or_tok} : string :=
  match tree_or_tok with
  | Token _ v => v
  | Tree data children =>
      if String.eqb data "function_call" then
        (* fname, fargs = _get_function_call_info(...); fargs is unused *)
        match func_name_of children with
        | None => ""
        | Some fname =>
            let args :=
              default []
                (next_map
                   (fun ch =>
                      match ch with
                      | Tree d exprs_children =>
                          if String.eqb d "exprs" then
                            Some (render_runs
                                    (map (fun c => (c, _flatten_expr_with_symbols sol_symbols c))
                                         exprs_children))
                          else None
                      | Token _ _ => None
                      end) children) in
            _render_call fname args sol_symbols
        end
      else if String.eqb data "special_var_attribute_call" then
        let name_tok := head (scan_values (is_token_typed "ID") tree_or_tok) in
        let attr_tok := head (scan_values (is_token_typed "SUM") tree_or_tok) in
        match name_tok, attr_tok with
        | Some n, Some a =>
            if token_truthy n && token_truthy a
            then token_value n +:+ "." +:+ token_value a
            else _flatten_tokens_only tree_or_tok
        | _, _ => _flatten_tokens_only tree_or_tok
        end
      else if String.eqb data "contract_attribute_call" then
        match find (is_tree_named "contract_attribute") children with
        | Some attr_node =>
            let attr := _flatten_tokens_only attr_node in
            if PyStr.truthy attr then "contract." +:+ attr else "contract"
        | None => "contract"
        end
      else
        let parts := map (_flatten_expr_with_symbols sol_symbols) children in
        PyStr.strip (PyStr.fixups (PyStr.join " " parts))
  end.

Definition _flatten_expr_with_symbols_list (nodes : list Node)
    (sol_symbols : SymbolTable) : string :=
  let parts := map (_flatten_expr_with_symbols sol_symbols) nodes in
  PyStr.strip (PyStr.fixups (PyStr.join " " parts)).

(** The argument list built by the [function_call] branches of the
    renderer and of the scan, as the source writes it. *)
Definition call_args (children : list Node) (sol_symbols : SymbolTable)
    : list string :=
  match exprs_node_of children with
  | Some exprs_node =>
      map (fun cur => _flatten_expr_with_symbols_list cur sol_symbols)
          (comma_runs is_comma (tree_children exprs_node) [])
  | None => []
  end.

(** ** The call-argument splitter *)

Definition _ATOM_TOKEN_TYPES : gset string :=
  {[ "ID"; "INTEGER_LITERAL"; "STRING_LITERAL"; "TRUE"; "FALSE" ]}.

Definition _is_atom_token (tok : Node) : bool :=
  match tok with
  | Token ty _ => bool_decide (ty ∈ _ATOM_TOKEN_TYPES)
  | Tree _ _ => false
  end.

(** [exprs_node] is an [Optional[Tree]]: both callers pass the result of a
    search for a [Tree] child. *)
Definition _split_call_args (exprs_node : option Node)
    (sol_symbols : SymbolTable) : list string :=
  match exprs_node with
  | None => []
  | Some exprs_node =>
      let children := tree_children exprs_node in
      if existsb is_Tree children then
        [PyStr.strip (_flatten_expr_with_symbols_list children sol_symbols)]
      else
        let toks := List.filter is_Token children in
        match toks with
        | [] => []
        | _ =>
            if existsb (fun t => String.eqb (token_value t) ",") toks then
              let args :=
                map (fun cur => _flatten_expr_with_symbols_list cur sol_symbols)
                    (comma_runs is_comma toks []) in
              map PyStr.strip args
            else if forallb _is_atom_token toks then
              map token_value toks
            else
              [PyStr.strip (_flatten_expr_with_symbols_list toks sol_symbols)]
        end
  end.

Definition _get_function_call_info (call_tree : Node)
    : option string * list string :=
  let children := tree_children call_tree in
  let exprs_node := exprs_node_of children in
  (func_name_of children, _split_call_args exprs_node no_symbols).

(** ** The call scan *)

Inductive DeclKind : Type :=
| state_var | function | unknown | state_var_attr | contract_attr.

(** One entry of the list returned by [_collect_call_like_from_expr].
    [d_attr] is [None] when the dict has no ["attr"] key. *)
Record CallDescriptor : Type := {
  d_name : string;
  d_args : list string;
  decl_kind : DeclKind;
  d_attr : option (option string);
  rendered : string
}.

(** [s.lower()] on the ASCII range. *)
Definition lower_char (c : ascii) : ascii :=
  let n := nat_of_ascii c in
  if ((65 <=? n) && (n <=? 90))%nat then ascii_of_nat (n + 32) else c.

Fixpoint lower (s : string) : string :=
  match s with
  | EmptyString => EmptyString
  | String c s' => String (lower_char c) (lower s')
  end.

Definition classify (fname : string) (sol_symbols : SymbolTable) : DeclKind :=
  if bool_decide (fname ∈ state_vars sol_symbols) then state_var
  else if bool_decide (fname ∈ functions sol_symbols) then function
  else unknown.

(** Body of the first loop: [None] stands for [continue]. *)
Definition function_call_entry (sol_symbols : SymbolTable) (fc : Node)
    : option CallDescriptor :=
  if negb (is_tree_named "function_call" fc) then None
  else
    match fst (_get_function_call_info fc) with
    | None => None
    | Some fname =>
        if negb (PyStr.truthy fname) then None
        else
          let fargs := call_args (tree_children fc) sol_symbols in
          Some {| d_name := fname;
                  d_args := fargs;
                  decl_kind := classify fname sol_symbols;
                  d_attr := None;
                  rendered := _render_call fname fargs sol_symbols |}
    end.

(** Body of the second loop. *)
Definition special_var_entry (sv : Node) : option CallDescriptor :=
  if negb (is_tree_named "special_var_attribute_call" sv) then None
  else
    let id_tok := head (scan_values (is_token_typed "ID") sv) in
    let attr_tok := head (scan_values (is_token_typed "SUM") sv) in
    let name :=
      match id_tok with
      | Some t => if token_truthy t then Some (token_value t) else None
      | None => None
      end in
    let attr :=
      match attr_tok with
      | Some t => if token_truthy t then Some (lower (token_value t)) else None
      | None => None
      end in
    match name with
    | None => None
    | Some name =>
        if negb (PyStr.truthy name) then None
        else
          let rendered :=
            match attr with
            | Some a => if PyStr.truthy a then name +:+ "." +:+ a else name
            | None => name
            end in
          Some {| d_name := name; d_args := []; decl_kind := state_var_attr;
                  d_attr := Some attr; rendered := rendered |}
    end.

(** Body of the third loop. *)
Definition contract_attr_entry (ca : Node) : option CallDescriptor :=
  if negb (is_tree_named "contract_attribute_call" ca) then None
  else
    let attr :=
      option_map _flatten_tokens_only
        (find (is_tree_named "contract_attribute") (tree_children ca)) in
    let rendered :=
      match attr with
      | Some a => if PyStr.truthy a then "contract." +:+ a else "contract"
      | None => "contract"
      end in
    Some {| d_name := "contract"; d_args := []; decl_kind := contract_attr;
            d_attr := Some attr; rendered := rendered |}.

Definition _collect_call_like_from_expr (expr_node : option Node)
    (sol_symbols : SymbolTable) : list CallDescriptor :=
  match expr_node with
  | None => []
  | Some expr_node =>
      let subtrees := iter_subtrees_topdown expr_node in
      omap (function_call_entry sol_symbols) subtrees
      ++ omap special_var_entry subtrees
      ++ omap contract_attr_entry subtrees
  end.

(** ** Rule parameters *)

Record RuleParam : Type := {
  p_type : string;
  p_name : option string
}.

(** The inner [_add_param]: the records it appends to [out]. *)
Definition _add_param (type_node name_tok : option Node) : list RuleParam :=
  match type_node with
  | None => []
  | Some ty =>
      [{| p_type := _flatten_tokens_only ty;
          p_name := match name_tok with
                    | Some tok =>
                        if token_truthy tok then Some (token_value tok) else None
                    | None => None
                    end |}]
  end.

(** The search for the first parameter's name.  [first_type] is the first
    [cvl_type] child, and the children of a parsed tree are distinct
    objects, so [ch is first_type] holds exactly at the first [cvl_type]
    child met, that is while [seen_type] is still false. *)
Fixpoint first_name_tok (children : list Node) (seen_type : bool)
    : option Node :=
  match children with
  | [] => None
  | ch :: rest =>
      if negb seen_type && is_tree_named "cvl_type" ch then
        first_name_tok rest true
      else if is_tree_named "param" ch then None
      else if seen_type && is_token_typed "ID" ch then Some ch
      else first_name_tok rest seen_type
  end.

Definition _extract_rule_params (params_node : option Node) : list RuleParam :=
  match params_node with
  | None => []
  | Some params_node =>
      let children := tree_children params_node in
      let first_type := find (is_tree_named "cvl_type") children in
      let first :=
        match first_type with
        | Some _ => _add_param first_type (first_name_tok children false)
        | None => []
        end in
      first ++
      flat_map
        (fun ch =>
           if is_tree_named "param" ch then
             let ptype := find (is_tree_named "cvl_type") (tree_children ch) in
             let pname := find (is_token_typed "ID") (tree_children ch) in
             _add_param ptype pname
           else [])
        children
  end.

(** ** Exceptions

    [fmt] indexes children and reads attributes without checking; a failed
    access raises.  [Res A] is the outcome of such a computation. *)

Inductive PyError : Type := IndexError | AttributeError | KeyError.

Inductive Res (A : Type) : Type :=
| Ok (a : A)
| Raise (e : PyError).
Arguments Ok {A} a.
Arguments Raise {A} e.

#[global] Instance Res_ret : MRet Res := fun A a => Ok a.
#[global] Instance Res_bind : MBind Res :=
  fun A B f m => match m with Ok a => f a | Raise e => Raise e end.

(** [l[i]] *)
Definition item {A : Type} (l : list A) (i : nat) : Res A :=
  match nth_error l i with Some x => Ok x | None => Raise IndexError end.

(** [n.children] *)
Definition get_children (n : Node) : Res (list Node) :=
  match n with Tree _ ch => Ok ch | Token _ _ => Raise AttributeError end.

(** [n.value] *)
Definition get_value (n : Node) : Res string :=
  match n with Token _ v => Ok v | Tree _ _ => Raise AttributeError end.

(** Run the computations of a list in order, stopping at the first raise. *)
Fixpoint sequence {A : Type} (l : list (Res A)) : Res (list A) :=
  match l with
  | [] => Ok []
  | r :: l' => x ← r; xs ← sequence l'; Ok (x :: xs)
  end.

(** ** Operator precedence *)

Definition BIN_PRECEDENCE : gmap string Z :=
  list_to_map
    [ ("||", 1); ("&&", 2);
      ("=>", 3); ("<=>", 4);
      ("==", 5); ("!=", 5);
      ("<", 6); ("<=", 6); (">", 6); (">=", 6);
      ("+", 7); ("-", 7);
      ("*", 8); ("/", 8); ("%", 8) ].

(** The module assigns [UNARY_PRECEDENCE] twice; the assignments run in
    source order and a name holds the value assigned last. *)
Definition UNARY_PRECEDENCE_assignments : list (string * Z) :=
  [ ("UNARY_PRECEDENCE", 9); ("UNARY_PRECEDENCE", 7) ].

Definition module_globals : gmap string Z :=
  fold_left (fun g kv => <[kv.1 := kv.2]> g) UNARY_PRECEDENCE_assignments ∅.

Definition UNARY_PRECEDENCE : Z :=
  default 0 (module_globals !! "UNARY_PRECEDENCE").

(** ** The precedence-aware formatter *)

Definition paren (s : string) : string := "(" +:+ s +:+ ")".

(** [for ch in exprs_node.children: if isinstance(ch, Tree): args.append(fmt(ch)[0])]
    over the children paired with their formatting. *)
Fixpoint tree_texts (l : list (Node * Res (string * Z))) : Res (list string) :=
  match l with
  | [] => Ok []
  | (ch, r) :: l' =>
      if is_Tree ch then
        '(atxt, _) ← r; rest ← tree_texts l'; Ok (atxt :: rest)
      else tree_texts l'
  end.

(** [max] of the precedences, starting from [mp = 0]. *)
Definition max_prec (l : list (string * Z)) : Z :=
  fold_left (fun mp tp => Z.max mp tp.2) l 0.

Fixpoint fmt (node : Node) {struct node} : Res (string * Z) :=
  match node with
  | Token _ v => Ok (v, 100)
  | Tree data children =>
      (* fmt(node.children[i]) *)
      let fmt_child := fun i : nat =>
        match nth_error (map fmt children) i with
        | Some r => r
        | None => Raise IndexError
        end in
      (* [fmt(c) for c in node.children] *)
      let fmt_all := sequence (map fmt children) in
      (* the generic call form, shared by function_call and the cast fallback *)
      let call_form :=
        let id_toks := map token_value (List.filter (is_token_typed "ID") children) in
        let fname := match id_toks with [] => "" | _ => PyStr.join "." id_toks end in
        args ← default (Ok [])
                 (next_map
                    (fun ch =>
                       match ch with
                       | Tree d exprs_children =>
                           if String.eqb d "exprs"
                           then Some (tree_texts (map (fun c => (c, fmt c)) exprs_children))
                           else None
                       | Token _ _ => None
                       end) children);
        Ok ((fname +:+ "(") +:+ PyStr.join ", " args +:+ ")", 10) in
      (* the last two statements of the function *)
      let generic :=
        match children with
        | [_] => fmt_child 0%nat
        | _ => all ← fmt_all; Ok (PyStr.join " " (map fst all), max_prec all)
        end in
      if String.eqb data "expr" && (4 <=? length children)%nat
         && match children with
            | c0 :: _ => is_token_typed "QUANTIFIER" c0
            | [] => false
            end
      then
        quant_tok ← item children 0;
        '(type_txt, _) ← fmt_child 1%nat;
        '(var_txt, _) ← fmt_child 2%nat;
        '(body_txt, _) ← fmt_child 3%nat;
        Ok (token_value quant_tok +:+ " (" +:+ type_txt +:+ " " +:+ var_txt
              +:+ ") " +:+ body_txt, 100)
      else if String.eqb data "unary_expr" then
        c0 ← item children 0; ops ← get_children c0;
        o ← item ops 0; op ← get_value o;
        '(t, p) ← fmt_child 1%nat;
        let t := if p <? UNARY_PRECEDENCE then paren t else t in
        Ok (op +:+ t, UNARY_PRECEDENCE)
      else if String.eqb data "special_var_attribute_call" then
        _ ← item children 0;
        attr ← item children 1;
        '(base_txt, _) ← fmt_child 0%nat;
        attr_children ← get_children attr;
        attr_tok ← item attr_children 0;
        attr_val ← get_value attr_tok;
        if String.eqb attr_val "sum" then
          Ok ("__verifier_sum_uint(" +:+ base_txt +:+ ")", 100)
        else if String.eqb attr_val "isum" then
          Ok ("__verifier_sum_int(" +:+ base_txt +:+ ")", 100)
        else Ok (base_txt +:+ "." +:+ attr_val, 100)
      else if String.eqb data "contract_attribute_call" then
        c ← item children 0;
        a ← item children 1;
        attr_val ←
          match a with
          | Tree _ (a0 :: _) => get_value a0
          | _ => get_value a
          end;
        if String.eqb attr_val "address" then Ok ("address(this)", 100)
        else if String.eqb attr_val "balance" then Ok ("address(this).balance", 100)
        else cv ← get_value c; Ok (cv +:+ "." +:+ attr_val, 100)
      else if String.eqb data "function_call" then call_form
      else if String.eqb data "cast_function_expr" then
        let cast_name :=
          option_map _flatten_tokens_only
            (find (is_tree_named "cast_function") children) in
        let arg_txt :=
          option_map token_value
            (find (is_token_typed "INTEGER_LITERAL") children) in
        match cast_name, arg_txt with
        | Some cn, Some a =>
            if PyStr.truthy cn then Ok ((cn +:+ "(") +:+ a +:+ ")", 10)
            else call_form
        | _, _ => call_form
        end
      else if String.eqb data "index" then
        all ← fmt_all;
        Ok (PyStr.join "" (map (fun tp => "[" +:+ tp.1 +:+ "]") all), 100)
      else if String.eqb data "attribute" then
        all ← fmt_all;
        Ok (PyStr.join "" (map (fun tp => "." +:+ tp.1) all), 100)
      else if String.eqb data "exprs" then
        match children with
        | [_] => '(inner_txt, _) ← fmt_child 0%nat; Ok (paren inner_txt, 100)
        | _ => all ← fmt_all; Ok (PyStr.join ", " (map fst all), 100)
        end
      else if String.eqb data "logic_bi_expr" then
        _ ← item children 0;
        op_node ← item children 1;
        _ ← item children 2;
        ops ← get_children op_node; o ← item ops 0; op ← get_value o;
        match BIN_PRECEDENCE !! op with
        | None => Raise KeyError
        | Some my_prec =>
            if String.eqb op "=>" then
              '(ltxt, lp) ← fmt_child 0%nat;
              '(rtxt, rp) ← fmt_child 2%nat;
              let ltxt := if lp <? my_prec then paren ltxt else ltxt in
              let rtxt := if rp <=? my_prec then paren rtxt else rtxt in
              Ok (ltxt +:+ " " +:+ op +:+ " " +:+ rtxt, my_prec)
            else
              '(ltxt, lp) ← fmt_child 0%nat;
              '(rtxt, rp) ← fmt_child 2%nat;
              let ltxt := if lp <? my_prec then paren ltxt else ltxt in
              let rtxt := if rp <? my_prec then paren rtxt else rtxt in
              Ok (ltxt +:+ " " +:+ op +:+ " " +:+ rtxt, my_prec)
        end
      else if String.eqb data "bi_expr" || String.eqb data "compare_bi_expr" then
        match children with
        | [_; op_node; _] =>
            if is_tree_named "binop" op_node || is_tree_named "compare_binop" op_node
            then
              ops ← get_children op_node; o ← item ops 0; op ← get_value o;
              let prec := default 1 (BIN_PRECEDENCE !! op) in
              '(ltxt, lp) ← fmt_child 0%nat;
              '(rtxt, rp) ← fmt_child 2%nat;
              let ltxt := if lp <? prec then paren ltxt else ltxt in
              let rtxt := if rp <? prec then paren rtxt else rtxt in
              Ok (ltxt +:+ " " +:+ op +:+ " " +:+ rtxt, prec)
            else all ← fmt_all; Ok (PyStr.join " " (map fst all), max_prec all)
        | _ => all ← fmt_all; Ok (PyStr.join " " (map fst all), max_prec all)
        end
      else if String.eqb data "expr" || String.eqb data "modify_var" then
        match children with
        | [c0; c1] =>
            if is_token_typed "ID" c0 && is_tree_named "index" c1 then
              '(base_txt, _) ← fmt_child 0%nat;
              '(idx_txt, _) ← fmt_child 1%nat;
              Ok (base_txt +:+ idx_txt, 100)
            else if is_token_typed "ID" c0 && is_tree_named "attribute" c1 then
              '(base_txt, _) ← fmt_child 0%nat;
              '(attr_txt, _) ← fmt_child 1%nat;
              Ok (base_txt +:+ attr_txt, 100)
            else generic
        | [c0; c1; c2] =>
            if is_token_typed "ID" c0 && is_tree_named "index" c1
               && is_tree_named "attribute" c2
            then
              '(base_txt, _) ← fmt_child 0%nat;
              '(idx_txt, _) ← fmt_child 1%nat;
              '(attr_txt, _) ← fmt_child 2%nat;
              Ok (base_txt +:+ idx_txt +:+ attr_txt, 100)
            else generic
        | _ => generic
        end
      else generic
  end.

Definition to_text (expr : Node) : Res string :=
  '(text, _) ← fmt expr; Ok text.

(** ** The remaining helpers *)

Definition _flatten_expr (tree_or_tok : Node) : string :=
  match tree_or_tok with
  | Token _ v => v
  | Tree _ _ =>
      let toks := map token_value (scan_values is_Token tree_or_tok) in
      PyStr.strip (PyStr.fixups (PyStr.join " " toks))
  end.

Definition _extract_param_types_from_pattern (pat : Node) : list string :=
  match find (is_tree_named "params") (tree_children pat) with
  | None => []
  | Some params_node =>
      map _flatten_tokens_only
          (List.filter (is_tree_named "cvl_type") (iter_subtrees_topdown params_node))
  end.

Definition _is_zero_arg_function_call (tree : Node) : option string :=
  if negb (is_tree_named "function_call" tree) then None
  else
    let children := tree_children tree in
    let exprs_node := exprs_node_of children in
    match func_name_of children with
    | Some func_name =>
        if PyStr.truthy func_name
           && match exprs_node with
              | None => true
              | Some e => (length (tree_children e) =? 0)%nat
              end
        then Some func_name
        else None
    | None => None
    end.

(** * Vocabulary of the properties *)

(** ** Rendered calls *)

(** One bracketed segment per argument: [[a1][a2]...]. *)
Definition indexed (args : list string) : string :=
  PyStr.join "" (map (fun a => "[" +:+ a +:+ "]") args).

(** The descriptors of the three loops are told apart by their kind. *)
Definition function_call_kind (k : DeclKind) : bool :=
  match k with
  | state_var | function | unknown => true
  | state_var_attr | contract_attr => false
  end.

(** ** Binary nodes *)

(** [binary_node n left op right P]: [n] is a binary node as [fmt]
    recognises it, with operands [left] and [right], operator text [op] and
    precedence [P].  A [logic_bi_expr] reads its first three children and
    needs [op] in the table; a [bi_expr] or [compare_bi_expr] has exactly
    three children, the middle one a [binop] or [compare_binop], and an
    operator missing from the table gets precedence 1. *)
Inductive binary_node : Node -> Node -> string -> Node -> Z -> Prop :=
| binary_logic (left right : Node) (ol ty op : string) (ops rest : list Node) (P : Z) :
    BIN_PRECEDENCE !! op = Some P ->
    binary_node
      (Tree "logic_bi_expr" (left :: Tree ol (Token ty op :: ops) :: right :: rest))
      left op right P
| binary_arith (d : string) (left right : Node) (ol ty op : string) (ops : list Node) :
    d = "bi_expr" \/ d = "compare_bi_expr" ->
    ol = "binop" \/ ol = "compare_binop" ->
    binary_node
      (Tree d [left; Tree ol (Token ty op :: ops); right])
      left op right (default 1 (BIN_PRECEDENCE !! op)).

(** The one case with a non-strict test on the right operand. *)
Definition implication_node (n : Node) (op : string) : bool :=
  is_tree_named "logic_bi_expr" n && String.eqb op "=>".

(** Whether [fmt] puts the right operand in parentheses. *)
Definition right_parenthesized (n : Node) (op : string) (rp P : Z) : bool :=
  if implication_node n op then rp <=? P else rp <? P.

(** ** Argument lists *)

(** Atomic tokens separated by comma tokens. *)
Fixpoint with_commas (toks : list Node) : list Node :=
  match toks with
  | [] => []
  | [t] => [t]
  | t :: toks' => t :: Token "COMMA" "," :: with_commas toks'
  end.

(** An atomic token that is not a comma. *)
Definition atom_arg (t : Node) : bool :=
  _is_atom_token t && negb (is_comma t).

(** A token text that the fix-ups and the strip leave as it is (every
    identifier and every number is one). *)
Definition plain_text (s : string) : bool :=
  String.eqb (join_fixup [s]) s.

Definition plain_atom (t : Node) : bool :=
  atom_arg t && plain_text (token_value t).

(** [sub in s] *)
Fixpoint contains (sub s : string) : bool :=
  String.prefix sub s
  || match s with
     | EmptyString => false
     | String _ s' => contains sub s'
     end.

Definition not_comma (t : Node) : bool := negb (is_comma t).

Definition not_exprs (c : Node) : bool := negb (is_tree_named "exprs" c).

(** ** Declarations *)

(** Trees of the grammar quoted in the docstring,
<<
    params : cvl_type data_location? ID? param*
    param  : "," cvl_type data_location? (ID)?
>>
    built from the declarations they stand for.  [sep] holds the tokens the
    parser keeps for the leading [","] of a [param], if any. *)

Record ParamDecl : Type := {
  decl_type : list Node;              (* the children of the cvl_type node *)
  decl_location : option (list Node); (* those of the data_location node *)
  decl_name : option string
}.

Definition decl_children (p : ParamDecl) : list Node :=
  Tree "cvl_type" (decl_type p)
  :: match decl_location p with
     | Some loc => [Tree "data_location" loc]
     | None => []
     end
  ++ match decl_name p with
     | Some n => [Token "ID" n]
     | None => []
     end.

Definition param_node (sep : list Node) (p : ParamDecl) : Node :=
  Tree "param" (sep ++ decl_children p).

Definition params_node (sep : list Node) (first : ParamDecl) (rest : list ParamDecl) : Node :=
  Tree "params" (decl_children first ++ map (param_node sep) rest).

Definition record_of (p : ParamDecl) : RuleParam :=
  {| p_type := _flatten_tokens_only (Tree "cvl_type" (decl_type p));
     p_name := decl_name p |}.

(** A separator token: a token that is not an identifier. *)
Definition separator (t : Node) : bool :=
  is_Token t && negb (is_token_typed "ID" t).

Definition named (p : ParamDecl) : bool :=
  match decl_name p with Some n => PyStr.truthy n | None => true end.

(** Children that may stand before the leading type: anything but a
    [cvl_type] or a [param] node. *)
Definition before_type (c : Node) : bool :=
  negb (is_tree_named "cvl_type" c) && negb (is_tree_named "param" c).

(** Children that may stand between the leading type and its name:
    anything but a [param] node or an identifier. *)
Definition before_name (c : Node) : bool :=
  negb (is_tree_named "param" c) && negb (is_token_typed "ID" c).

(** ** Further vocabulary *)

(** No [cvl_type] node anywhere below the nodes of [l]. *)
Definition cvl_free (l : list Node) : bool :=
  forallb (fun t => negb (is_tree_named "cvl_type" t))
          (flat_map iter_subtrees_topdown l).

Definition flat_decl (p : ParamDecl) : bool :=
  cvl_free (decl_type p)
  && match decl_location p with Some loc => cvl_free loc | None => true end.

Definition not_params (c : Node) : bool := negb (is_tree_named "params" c).

Definition not_id (c : Node) : bool := negb (is_token_typed "ID" c).

(** The labels that [fmt] treats by a rule of their own. *)
Definition fmt_labels : list string :=
  [ "expr"; "modify_var"; "unary_expr"; "special_var_attribute_call";
    "contract_attribute_call"; "function_call"; "cast_function_expr";
    "index"; "attribute"; "exprs"; "logic_bi_expr"; "bi_expr";
    "compare_bi_expr" ].

Definition plain_label (d : string) : bool :=
  negb (existsb (String.eqb d) fmt_labels).

(** The labels that the symbol-aware renderer treats by a rule of their own. *)
Definition call_like_label (d : string) : bool :=
  String.eqb d "function_call"
  || String.eqb d "special_var_attribute_call"
  || String.eqb d "contract_attribute_call".

(** The name [fmt] gives to a call: every identifier child, joined by dots. *)
Definition dotted_name (children : list Node) : string :=
  let id_toks := map token_value (List.filter (is_token_typed "ID") children) in
  match id_toks with [] => "" | _ => PyStr.join "." id_toks end.

(** The attribute text [fmt] reads from the second child of a
    [contract_attribute_call]: the first child's value when the node has
    children, the node's own value when it is a token. *)
Definition attribute_text (a : Node) : option string :=
  match a with
  | Tree _ (Token _ v :: _) => Some v
  | Tree _ _ => None
  | Token _ v => Some v
  end.

(** A result of [fmt] whose precedence, if any, lies between 0 and 100. *)
Definition prec_ok (r : Res (string * Z)) : Prop :=
  forall t p, r = Ok (t, p) -> 0 <= p <= 100.

(** A [param] node that yields a record: one with a [cvl_type] child. *)
Definition typed_param (ch : Node) : bool :=
  is_tree_named "param" ch && existsb (is_tree_named "cvl_type") (tree_children ch).

(** The kind the scan gives to a call of [fname], read off the two sets,
    and the call form it keeps for a name in neither. *)
Definition set_classified (sol_symbols : SymbolTable) (d : CallDescriptor) : Prop :=
  (d_name d ∈ state_vars sol_symbols -> decl_kind d = state_var)
  /\ (d_name d ∉ state_vars sol_symbols ->
      d_name d ∈ functions sol_symbols -> decl_kind d = function)
  /\ (d_name d ∉ state_vars sol_symbols ->
      d_name d ∉ functions sol_symbols ->
      decl_kind d = unknown
      /\ rendered d = d_name d +:+ "(" +:+ PyStr.join ", " (d_args d) +:+ ")").

(** A [function_call] node for which the scan makes a descriptor: one
    with a non-empty callee name. *)
Definition named_call (fc : Node) : bool :=
  is_tree_named "function_call" fc
  && match func_name_of (tree_children fc) with
     | Some fname => PyStr.truthy fname
     | None => false
     end.

(** ** Sample trees *)

Module ScanExample.
Definition sym : SymbolTable :=
  {| state_vars := {[ "balances"; "owner" ]};
     functions := {[ "transfer"; "owner" ]} |}.

Definition call (f : string) (args : list Node) : Node :=
  Tree "function_call" [Token "ID" f; Tree "exprs" args].

(** [balances(addr) + foo(x) + owner(i)] *)
Definition expr : Node :=
  Tree "expr" [ call "balances" [Token "ID" "addr"];
                call "foo" [Token "ID" "x"];
                call "owner" [Token "ID" "i"] ].

Definition foo_entry : CallDescriptor :=
  {| d_name := "foo"; d_args := ["x"]; decl_kind := unknown;
     d_attr := None; rendered := "foo(x)" |}.

Definition owner_entry : CallDescriptor :=
  {| d_name := "owner"; d_args := ["i"]; decl_kind := state_var;
     d_attr := None; rendered := "owner[i]" |}.
End ScanExample.

Module FmtExample.
Definition ID (s : string) : Node := Token "ID" s.

(** [l op r] as a [bi_expr]. *)
Definition bin (l : Node) (op : string) (r : Node) : Node :=
  Tree "bi_expr" [l; Tree "binop" [Token "OP" op]; r].

(** [l op r] as a [logic_bi_expr]. *)
Definition lbin (l : Node) (op : string) (r : Node) : Node :=
  Tree "logic_bi_expr" [l; Tree "logic_binop" [Token "OP" op]; r].
End FmtExample.

Module CallExample.
(** [balances(x + 1, y)]: a compound argument, a comma token, a token. *)
Definition balances_call : list Node :=
  [Token "ID" "balances";
   Tree "exprs"
     [Tree "bi_expr" [Token "ID" "x"; Tree "binop" [Token "PLUS" "+"];
                      Token "INTEGER_LITERAL" "1"];
      Token "COMMA" ",";
      Token "ID" "y"]].

(** [balances(a b)]: two tokens and no comma token. *)
Definition balances_bare : list Node :=
  [Token "ID" "balances"; Tree "exprs" [Token "ID" "a"; Token "ID" "b"]].

Definition transfer_call : list Node :=
  [Token "ID" "transfer";
   Tree "exprs" [Token "ID" "addr"; Token "COMMA" ","; Token "INTEGER_LITERAL" "100"]].

(** The arguments of [f('x ,y', b, c)]. *)
Definition literal_args : list Node :=
  [Token "STRING_LITERAL" "'x ,y'"; Token "ID" "b"; Token "ID" "c"].
End CallExample.

Module CoverageExample.
(** The argument list of [f(a.b(x))]. *)
Definition dotted : Node :=
  Tree "exprs"
    [Tree "function_call"
       [Token "ID" "a"; Token "ID" "b"; Tree "exprs" [Token "ID" "x"]]].

(** The argument list of [f(a, b)] with its comma token. *)
Definition pair : Node :=
  Tree "exprs" [Token "ID" "a"; Token "COMMA" ","; Token "ID" "b"].
End CoverageExample.

Module ParamsExample.
Definition decl (ty name : string) : ParamDecl :=
  {| decl_type := [Token "ELEMENTARY_TYPE" ty];
     decl_location := None;
     decl_name := Some name |}.

(** [uint a, address b, bytes32 c] *)
Definition first : ParamDecl := decl "uint" "a".
Definition rest : list ParamDecl := [decl "address" "b"; decl "bytes32" "c"].
End ParamsExample.

(** * Properties *)

Ltac fmt_step :=
  cbn [fmt String.eqb Ascii.eqb Bool.eqb andb orb map nth_error item
       get_children get_value mbind Res_bind length Nat.leb
       is_tree_named is_token_typed].

(** ** Strings *)

Example replace_ex1 : PyStr.replace " ," "," "f ( a , b )" = "f ( a, b )".
Proof. reflexivity. Qed.

Example fixups_ex1 : PyStr.fixups "f ( a , b ) . c" = "f (a, b). c".
Proof. reflexivity. Qed.

Example strip_ex1 : PyStr.strip "  a b  " = "a b".
Proof. reflexivity. Qed.

Module PyStrFacts.
Import PyStr.

Lemma app_nil_l (s : string) : "" +:+ s = s.
Proof. reflexivity. Qed.

Lemma app_nil_r (s : string) : s +:+ "" = s.
Proof. induction s as [|c s IH]; [reflexivity|]. cbv [String.append] in *. fold String.append in *. by rewrite IH. Qed.

Lemma app_cons (c : ascii) (s t : string) : String c s +:+ t = String c (s +:+ t).
Proof. reflexivity. Qed.

Lemma app_assoc (s t u : string) : (s +:+ t) +:+ u = s +:+ t +:+ u.
Proof.
  induction s as [|c s IH]; [reflexivity|].
  rewrite !app_cons. by rewrite IH.
Qed.

Lemma join_cons2 (sep x y : string) (l : list string) :
  join sep (x :: y :: l) = x +:+ sep +:+ join sep (y :: l).
Proof. reflexivity. Qed.

Lemma join_one (sep x : string) : join sep [x] = x.
Proof. reflexivity. Qed.

Lemma rstrip_idem (s : string) : rstrip (rstrip s) = rstrip s.
Proof.
  induction s as [|c s IH]; [reflexivity|].
  cbn [rstrip]. destruct (rstrip s) as [|c' r] eqn:E.
  - destruct (is_space c) eqn:Ec; [reflexivity|].
    cbn [rstrip]. by rewrite Ec.
  - cbn [rstrip] in *. by rewrite IH.
Qed.

Lemma lstrip_idem (s : string) : lstrip (lstrip s) = lstrip s.
Proof.
  induction s as [|c s IH]; [reflexivity|].
  cbn [lstrip]. destruct (is_space c) eqn:Ec; [exact IH|].
  cbn [lstrip]. by rewrite Ec.
Qed.

Lemma rstrip_lstrip (s : string) : rstrip (lstrip s) = lstrip (rstrip s).
Proof.
  induction s as [|c s IH]; [reflexivity|].
  cbn [lstrip rstrip].
  destruct (is_space c) eqn:Ec.
  - rewrite IH. destruct (rstrip s) as [|c' r]; [reflexivity|].
    cbn [lstrip]. by rewrite Ec.
  - cbn [rstrip]. destruct (rstrip s) as [|c' r]; cbn [lstrip]; by rewrite Ec.
Qed.

Lemma strip_idem (s : string) : strip (strip s) = strip s.
Proof.
  unfold strip.
  by rewrite rstrip_lstrip, rstrip_idem, lstrip_idem.
Qed.
End PyStrFacts.

(** ** [_render_call] *)

Lemma join_brackets (a : string) (l : list string) :
  "[" +:+ PyStr.join "][" (a :: l) +:+ "]" = indexed (a :: l).
Proof.
  revert a. induction l as [|b l IH]; intros a.
  - reflexivity.
  - rewrite PyStrFacts.join_cons2.
    change (indexed (a :: b :: l))
      with (("[" +:+ a +:+ "]") +:+ "" +:+ indexed (b :: l)).
    rewrite <- IH, !PyStrFacts.app_assoc. reflexivity.
Qed.

Lemma render_call_state_var (name : string) (args : list string) (sol_symbols : SymbolTable) :
  name ∈ state_vars sol_symbols ->
  _render_call name args sol_symbols =
    match args with
    | [] => name
    | _ => name +:+ indexed args
    end.
Proof.
  intros Hin. unfold _render_call. rewrite bool_decide_eq_true_2 by done.
  destruct args as [|a [|b l]]; [reflexivity| reflexivity |].
  rewrite PyStrFacts.app_assoc. by rewrite join_brackets.
Qed.

Lemma render_call_other (name : string) (args : list string) (sol_symbols : SymbolTable) :
  name ∉ state_vars sol_symbols ->
  _render_call name args sol_symbols = name +:+ "(" +:+ PyStr.join ", " args +:+ ")".
Proof.
  intros Hin. unfold _render_call. rewrite bool_decide_eq_false_2 by done.
  by rewrite PyStrFacts.app_assoc.
Qed.

(** C5: [_render_call] renders a state variable as the bare name (no
    argument) or as [name[a1][a2]...] with one bracketed segment per
    argument, and any other name as [name(a1, a2, ...)]. *)
Theorem render_call_spec (name : string) (args : list string) (sol_symbols : SymbolTable) :
  _render_call name args sol_symbols =
    if bool_decide (name ∈ state_vars sol_symbols) then
      match args with
      | [] => name
      | _ => name +:+ indexed args
      end
    else name +:+ "(" +:+ PyStr.join ", " args +:+ ")".
Proof.
  case_bool_decide.
  - by apply render_call_state_var.
  - by apply render_call_other.
Qed.

Example render_call_balances :
  _render_call "balances" ["addr"]
    {| state_vars := {["balances"]}; functions := {["transfer"]} |} = "balances[addr]"
  /\ _render_call "transfer" ["addr"; "100"]
    {| state_vars := {["balances"]}; functions := {["transfer"]} |} = "transfer(addr, 100)".
Proof. split; vm_compute; reflexivity. Qed.

(** ** The call scan *)

Lemma classify_kind (fname : string) (sol_symbols : SymbolTable) :
  function_call_kind (classify fname sol_symbols) = true.
Proof. unfold classify. repeat case_bool_decide; reflexivity. Qed.

Lemma function_call_entry_inv (sol_symbols : SymbolTable) (fc : Node) (d : CallDescriptor) :
  function_call_entry sol_symbols fc = Some d ->
  is_tree_named "function_call" fc = true
  /\ func_name_of (tree_children fc) = Some (d_name d)
  /\ d_name d <> ""
  /\ d_args d = call_args (tree_children fc) sol_symbols
  /\ decl_kind d = classify (d_name d) sol_symbols
  /\ rendered d = _render_call (d_name d) (d_args d) sol_symbols.
Proof.
  unfold function_call_entry.
  destruct (is_tree_named "function_call" fc) eqn:Hfc; [|discriminate].
  cbn [negb fst _get_function_call_info].
  destruct (func_name_of (tree_children fc)) as [fname|] eqn:Hname; [|discriminate].
  destruct fname as [|c fname]; [discriminate|].
  cbn [PyStr.truthy negb]. intros [= <-]. cbn. by repeat split.
Qed.

Lemma function_call_entry_intro (sol_symbols : SymbolTable) (fc : Node) (fname : string) :
  is_tree_named "function_call" fc = true ->
  func_name_of (tree_children fc) = Some fname ->
  fname <> "" ->
  function_call_entry sol_symbols fc =
    Some {| d_name := fname;
            d_args := call_args (tree_children fc) sol_symbols;
            decl_kind := classify fname sol_symbols;
            d_attr := None;
            rendered := _render_call fname (call_args (tree_children fc) sol_symbols)
                          sol_symbols |}.
Proof.
  intros Hfc Hname Hne. unfold function_call_entry.
  rewrite Hfc. cbn [negb fst _get_function_call_info]. rewrite Hname.
  destruct fname as [|c fname]; [congruence|]. reflexivity.
Qed.

Lemma special_var_entry_kind (sv : Node) (d : CallDescriptor) :
  special_var_entry sv = Some d -> decl_kind d = state_var_attr.
Proof.
  unfold special_var_entry.
  repeat (case_match; try discriminate); by intros [= <-].
Qed.

Lemma contract_attr_entry_kind (ca : Node) (d : CallDescriptor) :
  contract_attr_entry ca = Some d -> decl_kind d = contract_attr.
Proof.
  unfold contract_attr_entry.
  repeat (case_match; try discriminate); by intros [= <-].
Qed.

Lemma collect_function_entries_intro (expr : Node) (sol_symbols : SymbolTable)
    (fc : Node) (d : CallDescriptor) :
  fc ∈ iter_subtrees_topdown expr ->
  function_call_entry sol_symbols fc = Some d ->
  d ∈ _collect_call_like_from_expr (Some expr) sol_symbols.
Proof.
  intros Hin Hd. unfold _collect_call_like_from_expr. cbv zeta.
  rewrite elem_of_app, list_elem_of_omap. left. eauto.
Qed.

Lemma special_var_entry_label (sv : Node) (d : CallDescriptor) :
  special_var_entry sv = Some d ->
  is_tree_named "special_var_attribute_call" sv = true.
Proof. unfold special_var_entry. by destruct (is_tree_named _ sv). Qed.

Lemma contract_attr_entry_label (ca : Node) (d : CallDescriptor) :
  contract_attr_entry ca = Some d ->
  is_tree_named "contract_attribute_call" ca = true.
Proof. unfold contract_attr_entry. by destruct (is_tree_named _ ca). Qed.

(** Every descriptor comes from one of the three loops. *)
Lemma collect_origin (expr : Node) (sol_symbols : SymbolTable) (d : CallDescriptor) :
  d ∈ _collect_call_like_from_expr (Some expr) sol_symbols ->
  (exists fc, fc ∈ iter_subtrees_topdown expr
              /\ function_call_entry sol_symbols fc = Some d)
  \/ (exists sv, sv ∈ iter_subtrees_topdown expr /\ special_var_entry sv = Some d)
  \/ (exists ca, ca ∈ iter_subtrees_topdown expr /\ contract_attr_entry ca = Some d).
Proof.
  unfold _collect_call_like_from_expr. cbv zeta.
  rewrite !elem_of_app, !list_elem_of_omap. tauto.
Qed.

Lemma function_call_entry_classified (sol_symbols : SymbolTable) (fc : Node)
    (d : CallDescriptor) :
  function_call_entry sol_symbols fc = Some d -> set_classified sol_symbols d.
Proof.
  intros Hentry.
  apply function_call_entry_inv in Hentry as (_ & _ & _ & _ & Hkind & Hrend).
  unfold set_classified. rewrite Hkind, Hrend. unfold classify.
  split_and!; intros; repeat case_bool_decide; try done.
  split; [done|]. by apply render_call_other.
Qed.

(** C8: the scan makes a descriptor for every [function_call] subtree with
    a callee name, and that descriptor is classified [state_var] when the
    name is a state variable, [function] when it is (otherwise) a function
    and [unknown] when it is in neither set, in which case it is still
    rendered in the call form [name(a1, a2, ...)]; every descriptor of the
    result is either such a descriptor of a [function_call] subtree,
    classified in that way, or a [state_var_attr] or [contract_attr]
    descriptor of a subtree of that kind.  The scan is a total function: no
    input makes it fail. *)
Theorem collect_classification (expr : Node) (sol_symbols : SymbolTable) :
  (forall fc fname,
      fc ∈ iter_subtrees_topdown expr ->
      is_tree_named "function_call" fc = true ->
      func_name_of (tree_children fc) = Some fname ->
      fname <> "" ->
      exists d, d ∈ _collect_call_like_from_expr (Some expr) sol_symbols
                /\ d_name d = fname
                /\ d_args d = call_args (tree_children fc) sol_symbols
                /\ (fname ∈ state_vars sol_symbols -> decl_kind d = state_var)
                /\ (fname ∉ state_vars sol_symbols ->
                    fname ∈ functions sol_symbols -> decl_kind d = function)
                /\ (fname ∉ state_vars sol_symbols ->
                    fname ∉ functions sol_symbols ->
                    decl_kind d = unknown
                    /\ rendered d =
                         fname +:+ "(" +:+ PyStr.join ", " (d_args d) +:+ ")"))
  /\ (forall d,
         d ∈ _collect_call_like_from_expr (Some expr) sol_symbols ->
         (exists fc,
             fc ∈ iter_subtrees_topdown expr
             /\ is_tree_named "function_call" fc = true
             /\ func_name_of (tree_children fc) = Some (d_name d)
             /\ d_args d = call_args (tree_children fc) sol_symbols
             /\ set_classified sol_symbols d)
         \/ (exists sv,
                sv ∈ iter_subtrees_topdown expr
                /\ is_tree_named "special_var_attribute_call" sv = true
                /\ special_var_entry sv = Some d
                /\ decl_kind d = state_var_attr)
         \/ (exists ca,
                ca ∈ iter_subtrees_topdown expr
                /\ is_tree_named "contract_attribute_call" ca = true
                /\ contract_attr_entry ca = Some d
                /\ decl_kind d = contract_attr)).
Proof.
  split.
  - intros fc fname Hin Hfc Hname Hne.
    pose proof (function_call_entry_intro sol_symbols fc fname Hfc Hname Hne) as Hentry.
    pose proof (function_call_entry_classified _ _ _ Hentry) as (Hs & Hf & Hu).
    eexists. split; [by eapply collect_function_entries_intro|].
    cbn [d_name d_args decl_kind rendered] in *. by split_and!.
  - intros d Hd.
    destruct (collect_origin _ _ _ Hd)
      as [(fc & Hin & He) | [(sv & Hin & He) | (ca & Hin & He)]].
    + left. exists fc.
      pose proof (function_call_entry_inv _ _ _ He) as (Hfc & Hname & _ & Hargs & _).
      split_and!; try done. by eapply function_call_entry_classified.
    + right. left. exists sv. split_and!; try done.
      * by eapply special_var_entry_label.
      * by eapply special_var_entry_kind.
    + right. right. exists ca. split_and!; try done.
      * by eapply contract_attr_entry_label.
      * by eapply contract_attr_entry_kind.
Qed.

Lemma collect_classification_witness :
  ScanExample.call "balances" [Token "ID" "addr"] ∈ iter_subtrees_topdown ScanExample.expr
  /\ ScanExample.call "foo" [Token "ID" "x"] ∈ iter_subtrees_topdown ScanExample.expr
  /\ is_tree_named "function_call" (ScanExample.call "balances" [Token "ID" "addr"]) = true
  /\ is_tree_named "function_call" (ScanExample.call "foo" [Token "ID" "x"]) = true
  /\ func_name_of (tree_children (ScanExample.call "balances" [Token "ID" "addr"]))
     = Some "balances"
  /\ func_name_of (tree_children (ScanExample.call "foo" [Token "ID" "x"])) = Some "foo"
  /\ "balances" <> ""
  /\ "foo" <> ""
  /\ ("balances" ∈ state_vars ScanExample.sym)
  /\ ("foo" ∉ state_vars ScanExample.sym)
  /\ ("foo" ∉ functions ScanExample.sym)
  /\ (exists d,
        d ∈ _collect_call_like_from_expr (Some ScanExample.expr) ScanExample.sym
        /\ d_name d = "balances"
        /\ decl_kind d = state_var)
  /\ (exists d,
        d ∈ _collect_call_like_from_expr (Some ScanExample.expr) ScanExample.sym
        /\ d_name d = "foo"
        /\ decl_kind d = unknown
        /\ rendered d = "foo" +:+ "(" +:+ PyStr.join ", " (d_args d) +:+ ")").
Proof.
  assert (Hinb : ScanExample.call "balances" [Token "ID" "addr"]
                 ∈ iter_subtrees_topdown ScanExample.expr).
  { vm_compute. apply list_elem_of_further. apply list_elem_of_here. }
  assert (Hin : ScanExample.call "foo" [Token "ID" "x"]
                ∈ iter_subtrees_topdown ScanExample.expr).
  { vm_compute. do 3 apply list_elem_of_further. apply list_elem_of_here. }
  assert (Hneb : "balances" <> "") by discriminate.
  assert (Hne : "foo" <> "") by discriminate.
  assert (Hb : "balances" ∈ state_vars ScanExample.sym)
    by (apply (bool_decide_unpack _); vm_compute; exact I).
  assert (Hs : "foo" ∉ state_vars ScanExample.sym)
    by (apply (bool_decide_unpack _); vm_compute; exact I).
  assert (Hf : "foo" ∉ functions ScanExample.sym)
    by (apply (bool_decide_unpack _); vm_compute; exact I).
  refine (conj Hinb (conj Hin (conj eq_refl (conj eq_refl (conj eq_refl (conj eq_refl
            (conj Hneb (conj Hne (conj Hb (conj Hs (conj Hf (conj _ _)))))))))))).
  - destruct (proj1 (collect_classification ScanExample.expr ScanExample.sym)
                (ScanExample.call "balances" [Token "ID" "addr"]) "balances"
                Hinb eq_refl eq_refl Hneb)
      as (d & Hd & Hname & _ & Hstate & _).
    exists d. split_and!; [exact Hd|exact Hname|exact (Hstate Hb)].
  - destruct (proj1 (collect_classification ScanExample.expr ScanExample.sym)
                (ScanExample.call "foo" [Token "ID" "x"]) "foo" Hin eq_refl eq_refl Hne)
      as (d & Hd & Hname & _ & _ & _ & Hunknown).
    exists d. destruct (Hunknown Hs Hf) as [Hk Hr].
    split_and!; [exact Hd|exact Hname|exact Hk|exact Hr].
Defined.

(** C10: a name present in both sets is treated as a state variable:
    [_render_call] renders it as indexed access, never as a call; the scan
    makes for every call to it a descriptor classified [state_var] and
    rendered as indexed access, and no descriptor with that name is
    classified [function] or [unknown]. *)
Theorem state_var_priority (name : string) (sol_symbols : SymbolTable) :
  name ∈ state_vars sol_symbols ->
  name ∈ functions sol_symbols ->
  (forall args,
      _render_call name args sol_symbols =
        match args with [] => name | _ => name +:+ indexed args end)
  /\ (forall expr fc,
         fc ∈ iter_subtrees_topdown expr ->
         is_tree_named "function_call" fc = true ->
         func_name_of (tree_children fc) = Some name ->
         name <> "" ->
         exists d,
           d ∈ _collect_call_like_from_expr (Some expr) sol_symbols
           /\ d_name d = name
           /\ d_args d = call_args (tree_children fc) sol_symbols
           /\ decl_kind d = state_var
           /\ rendered d =
                match d_args d with [] => name | _ => name +:+ indexed (d_args d) end)
  /\ (forall expr d,
         d ∈ _collect_call_like_from_expr (Some expr) sol_symbols ->
         d_name d = name ->
         decl_kind d <> function /\ decl_kind d <> unknown).
Proof.
  intros Hs Hf. split_and!.
  - intros args. by apply render_call_state_var.
  - intros expr fc Hin Hfc Hname Hne.
    pose proof (function_call_entry_intro sol_symbols fc name Hfc Hname Hne) as Hentry.
    eexists. split; [by eapply collect_function_entries_intro|].
    cbn [d_name d_args decl_kind rendered]. split_and!; try done.
    + unfold classify. by rewrite bool_decide_eq_true_2.
    + by apply render_call_state_var.
  - intros expr d Hd Hname.
    destruct (collect_origin _ _ _ Hd)
      as [(fc & _ & He) | [(sv & _ & He) | (ca & _ & He)]].
    + apply function_call_entry_inv in He as (_ & _ & _ & _ & Hkind & _).
      rewrite Hkind, Hname. unfold classify. by rewrite bool_decide_eq_true_2.
    + apply special_var_entry_kind in He. by rewrite He.
    + apply contract_attr_entry_kind in He. by rewrite He.
Qed.

Lemma state_var_priority_witness :
  "owner" ∈ state_vars ScanExample.sym
  /\ "owner" ∈ functions ScanExample.sym
  /\ ScanExample.call "owner" [Token "ID" "i"] ∈ iter_subtrees_topdown ScanExample.expr
  /\ is_tree_named "function_call" (ScanExample.call "owner" [Token "ID" "i"]) = true
  /\ func_name_of (tree_children (ScanExample.call "owner" [Token "ID" "i"])) = Some "owner"
  /\ "owner" <> ""
  /\ _render_call "owner" ["i"; "j"] ScanExample.sym = "owner" +:+ indexed ["i"; "j"]
  /\ exists d,
       d ∈ _collect_call_like_from_expr (Some ScanExample.expr) ScanExample.sym
       /\ d_name d = "owner"
       /\ decl_kind d = state_var.
Proof.
  assert (Hs : "owner" ∈ state_vars ScanExample.sym)
    by (apply (bool_decide_unpack _); vm_compute; exact I).
  assert (Hf : "owner" ∈ functions ScanExample.sym)
    by (apply (bool_decide_unpack _); vm_compute; exact I).
  assert (Hin : ScanExample.call "owner" [Token "ID" "i"]
                ∈ iter_subtrees_topdown ScanExample.expr).
  { vm_compute. do 5 apply list_elem_of_further. apply list_elem_of_here. }
  assert (Hne : "owner" <> "") by discriminate.
  refine (conj Hs (conj Hf (conj Hin (conj eq_refl (conj eq_refl (conj Hne _)))))).
  split.
  - exact (proj1 (state_var_priority "owner" ScanExample.sym Hs Hf) ["i"; "j"]).
  - destruct (proj1 (proj2 (state_var_priority "owner" ScanExample.sym Hs Hf))
                ScanExample.expr (ScanExample.call "owner" [Token "ID" "i"])
                Hin eq_refl eq_refl Hne) as (d & Hd & Hname & _ & Hk & _).
    exists d. by split_and!.
Defined.

(** ** The formatter: unary expressions *)

Lemma UNARY_PRECEDENCE_value : UNARY_PRECEDENCE = 7.
Proof. reflexivity. Qed.

(** C4: a unary expression is rendered [<op><operand>], the operand
    between ["("] and [")"] exactly when its precedence is below
    [UNARY_PRECEDENCE], and the result reports [UNARY_PRECEDENCE]; the
    module assigns that one name twice, 9 and then 7, and 7 is the value in
    effect. *)
Theorem fmt_unary_expr (ol ty op : string) (ops : list Node) (operand : Node)
    (rest : list Node) (t : string) (p : Z) :
  fmt operand = Ok (t, p) ->
  fmt (Tree "unary_expr" (Tree ol (Token ty op :: ops) :: operand :: rest)) =
    Ok (op +:+ (if p <? UNARY_PRECEDENCE then "(" +:+ t +:+ ")" else t),
        UNARY_PRECEDENCE)
  /\ (p < UNARY_PRECEDENCE ->
      fmt (Tree "unary_expr" (Tree ol (Token ty op :: ops) :: operand :: rest)) =
        Ok (op +:+ "(" +:+ t +:+ ")", 7))
  /\ (UNARY_PRECEDENCE <= p ->
      fmt (Tree "unary_expr" (Tree ol (Token ty op :: ops) :: operand :: rest)) =
        Ok (op +:+ t, 7))
  /\ UNARY_PRECEDENCE_assignments =
       [("UNARY_PRECEDENCE", 9); ("UNARY_PRECEDENCE", 7)]
  /\ UNARY_PRECEDENCE = 7.
Proof.
  intros Hoperand.
  assert (Hfmt : fmt (Tree "unary_expr" (Tree ol (Token ty op :: ops) :: operand :: rest)) =
                 Ok (op +:+ (if p <? UNARY_PRECEDENCE then "(" +:+ t +:+ ")" else t),
                     UNARY_PRECEDENCE)).
  { cbn [fmt String.eqb Ascii.eqb Bool.eqb andb orb map nth_error item
         get_children get_value mbind Res_bind length Nat.leb].
    rewrite Hoperand. reflexivity. }
  split_and!; try reflexivity.
  - exact Hfmt.
  - intros Hp. rewrite Hfmt. destruct (Z.ltb_spec p UNARY_PRECEDENCE); [reflexivity|lia].
  - intros Hp. rewrite Hfmt. destruct (Z.ltb_spec p UNARY_PRECEDENCE); [lia|reflexivity].
Qed.

Lemma fmt_unary_expr_witness :
  fmt (FmtExample.lbin (FmtExample.ID "a") "&&" (FmtExample.ID "b")) = Ok ("a && b", 2)
  /\ 2 < UNARY_PRECEDENCE
  /\ fmt (Tree "unary_expr"
            [Tree "unop" [Token "NOT" "!"];
             FmtExample.lbin (FmtExample.ID "a") "&&" (FmtExample.ID "b")])
     = Ok ("!" +:+ "(" +:+ "a && b" +:+ ")", 7).
Proof.
  assert (H : fmt (FmtExample.lbin (FmtExample.ID "a") "&&" (FmtExample.ID "b"))
              = Ok ("a && b", 2)) by reflexivity.
  assert (Hp : 2 < UNARY_PRECEDENCE) by reflexivity.
  refine (conj H (conj Hp _)).
  exact (proj1 (proj2 (fmt_unary_expr "unop" "NOT" "!" [] _ [] "a && b" 2 H)) Hp).
Defined.

Example fmt_unary_parentheses :
  fmt (Tree "unary_expr"
         [Tree "unop" [Token "NOT" "!"];
          FmtExample.lbin (FmtExample.ID "a") "&&" (FmtExample.ID "b")])
    = Ok ("!(a && b)", 7)
  /\ fmt (Tree "unary_expr"
            [Tree "unop" [Token "MINUS" "-"];
             FmtExample.bin (FmtExample.ID "a") "*" (FmtExample.ID "b")])
     = Ok ("-a * b", 7).
Proof. split; reflexivity. Qed.

(** ** The formatter: binary expressions *)

Lemma fmt_binary_node (n left right : Node) (op : string) (P : Z)
    (ltxt rtxt : string) (lp rp : Z) :
  binary_node n left op right P ->
  fmt left = Ok (ltxt, lp) ->
  fmt right = Ok (rtxt, rp) ->
  fmt n =
    Ok ((if lp <? P then paren ltxt else ltxt) +:+ " " +:+ op +:+ " "
          +:+ (if right_parenthesized n op rp P then paren rtxt else rtxt), P).
Proof.
  intros Hn Hl Hr. destruct Hn as [left right ol ty op ops rest P HP
                                  | d left right ol ty op ops Hd Hol].
  - unfold right_parenthesized, implication_node. fmt_step.
    rewrite HP, Hl, Hr. destruct (String.eqb op "=>"); reflexivity.
  - unfold right_parenthesized, implication_node.
    destruct Hd as [-> | ->], Hol as [-> | ->]; fmt_step; by rewrite Hl, Hr.
Qed.

Lemma BIN_PRECEDENCE_range (op : string) (P : Z) :
  BIN_PRECEDENCE !! op = Some P -> 1 <= P <= 8.
Proof.
  intros Hop.
  assert (Hall : map_Forall (fun _ P => 1 <= P <= 8) BIN_PRECEDENCE).
  { apply (bool_decide_unpack _). vm_compute. exact I. }
  exact (Hall op P Hop).
Qed.

Lemma binary_node_range (n left right : Node) (op : string) (P : Z) :
  binary_node n left op right P -> 1 <= P <= 8.
Proof.
  intros [left' right' ol ty op' ops rest P' HP | d left' right' ol ty op' ops _ _].
  - by eapply BIN_PRECEDENCE_range.
  - destruct (BIN_PRECEDENCE !! op') as [P'|] eqn:HP; cbn; [|lia].
    by eapply BIN_PRECEDENCE_range.
Qed.

Lemma fmt_exprs_group (c : Node) (ctxt : string) (cp : Z) :
  fmt c = Ok (ctxt, cp) -> fmt (Tree "exprs" [c]) = Ok (paren ctxt, 100).
Proof. intros Hc. fmt_step. by rewrite Hc. Qed.

(** C3: for a binary node with operator [op] at precedence [P], the
    implication being an operator of [logic_bi_expr] nodes, the left
    operand is put between ["("] and [")"] iff its precedence is strictly
    below [P]; the right operand is iff its precedence is at most [P] when
    [op] is [=>], and iff it is strictly below [P] for every other operator;
    the result reports [P]. *)
Theorem fmt_binary_rule (n left right : Node) (op : string) (P : Z)
    (ltxt rtxt : string) (lp rp : Z) :
  binary_node n left op right P ->
  (op = "=>" -> is_tree_named "logic_bi_expr" n = true) ->
  fmt left = Ok (ltxt, lp) ->
  fmt right = Ok (rtxt, rp) ->
  exists lout rout,
    fmt n = Ok (lout +:+ " " +:+ op +:+ " " +:+ rout, P)
    /\ (lp < P -> lout = "(" +:+ ltxt +:+ ")")
    /\ (P <= lp -> lout = ltxt)
    /\ (op = "=>" ->
        (rp <= P -> rout = "(" +:+ rtxt +:+ ")") /\ (P < rp -> rout = rtxt))
    /\ (op <> "=>" ->
        (rp < P -> rout = "(" +:+ rtxt +:+ ")") /\ (P <= rp -> rout = rtxt)).
Proof.
  intros Hn Himp Hl Hr.
  exists (if lp <? P then "(" +:+ ltxt +:+ ")" else ltxt),
         (if right_parenthesized n op rp P then "(" +:+ rtxt +:+ ")" else rtxt).
  split; [exact (fmt_binary_node _ _ _ _ _ _ _ _ _ Hn Hl Hr)|].
  unfold right_parenthesized, implication_node.
  split_and!.
  - intros Hlt. destruct (Z.ltb_spec lp P); [reflexivity|lia].
  - intros Hge. destruct (Z.ltb_spec lp P); [lia|reflexivity].
  - intros ->. rewrite Himp by reflexivity. cbn [andb String.eqb Ascii.eqb Bool.eqb].
    split; intros H; destruct (Z.leb_spec rp P); (reflexivity || lia).
  - intros Hne. apply String.eqb_neq in Hne. rewrite Hne, andb_false_r.
    split; intros H; destruct (Z.ltb_spec rp P); (reflexivity || lia).
Qed.

Lemma fmt_binary_rule_witness :
  binary_node
    (FmtExample.lbin (FmtExample.ID "a") "=>"
       (FmtExample.lbin (FmtExample.ID "b") "=>" (FmtExample.ID "c")))
    (FmtExample.ID "a") "=>"
    (FmtExample.lbin (FmtExample.ID "b") "=>" (FmtExample.ID "c")) 3
  /\ ("=>" = "=>" ->
      is_tree_named "logic_bi_expr"
        (FmtExample.lbin (FmtExample.ID "a") "=>"
           (FmtExample.lbin (FmtExample.ID "b") "=>" (FmtExample.ID "c"))) = true)
  /\ fmt (FmtExample.ID "a") = Ok ("a", 100)
  /\ fmt (FmtExample.lbin (FmtExample.ID "b") "=>" (FmtExample.ID "c")) = Ok ("b => c", 3)
  /\ exists lout rout,
       fmt (FmtExample.lbin (FmtExample.ID "a") "=>"
              (FmtExample.lbin (FmtExample.ID "b") "=>" (FmtExample.ID "c")))
         = Ok (lout +:+ " " +:+ "=>" +:+ " " +:+ rout, 3)
       /\ lout = "a" /\ rout = "(" +:+ "b => c" +:+ ")".
Proof.
  assert (Hn : binary_node
                 (FmtExample.lbin (FmtExample.ID "a") "=>"
                    (FmtExample.lbin (FmtExample.ID "b") "=>" (FmtExample.ID "c")))
                 (FmtExample.ID "a") "=>"
                 (FmtExample.lbin (FmtExample.ID "b") "=>" (FmtExample.ID "c")) 3)
    by (apply binary_logic; reflexivity).
  assert (Hi : "=>" = "=>" ->
               is_tree_named "logic_bi_expr"
                 (FmtExample.lbin (FmtExample.ID "a") "=>"
                    (FmtExample.lbin (FmtExample.ID "b") "=>" (FmtExample.ID "c"))) = true)
    by (intros _; reflexivity).
  assert (Hl : fmt (FmtExample.ID "a") = Ok ("a", 100)) by reflexivity.
  assert (Hr : fmt (FmtExample.lbin (FmtExample.ID "b") "=>" (FmtExample.ID "c"))
               = Ok ("b => c", 3)) by reflexivity.
  refine (conj Hn (conj Hi (conj Hl (conj Hr _)))).
  destruct (fmt_binary_rule _ _ _ _ _ _ _ _ _ Hn Hi Hl Hr)
    as (lout & rout & Hfmt & _ & Hlout & Himp & _).
  exists lout, rout. split; [exact Hfmt|]. split.
  - apply Hlout. lia.
  - apply (proj1 (Himp eq_refl)). lia.
Defined.

Example fmt_binary_parentheses :
  fmt (FmtExample.bin (FmtExample.bin (FmtExample.ID "a") "+" (FmtExample.ID "b")) "*"
         (FmtExample.ID "c")) = Ok ("(a + b) * c", 8)
  /\ fmt (FmtExample.bin (FmtExample.ID "a") "*"
            (FmtExample.bin (FmtExample.ID "b") "+" (FmtExample.ID "c")))
     = Ok ("a * (b + c)", 8)
  /\ fmt (FmtExample.bin (FmtExample.ID "a") "+"
            (FmtExample.bin (FmtExample.ID "b") "*" (FmtExample.ID "c")))
     = Ok ("a + b * c", 7).
Proof. split_and!; reflexivity. Qed.

(** Nested implications in [logic_bi_expr] nodes: the right group is
    parenthesised, the left group is not. *)
Example fmt_implication_nesting :
  fmt (FmtExample.lbin (FmtExample.ID "a") "=>"
         (FmtExample.lbin (FmtExample.ID "b") "=>" (FmtExample.ID "c")))
    = Ok ("a => (b => c)", 3)
  /\ fmt (FmtExample.lbin
            (FmtExample.lbin (FmtExample.ID "a") "=>" (FmtExample.ID "b"))
            "=>" (FmtExample.ID "c"))
     = Ok ("a => b => c", 3).
Proof. split; reflexivity. Qed.

(** C1 (as amended): in [a OP1 (b OP2 c)], when the right operand reaches
    [fmt] as the binary node [b OP2 c] itself, the group is rendered without
    parentheses when [OP2] binds strictly tighter than [OP1] and between
    ["("] and [")"] when it binds strictly looser; at equal precedence it
    is parenthesised only when the outer node is a [logic_bi_expr] whose
    operator is [=>], and not otherwise.  When the right operand is the
    [exprs] group that stands for parentheses of the source, the
    parentheses are kept whatever the two precedences. *)
Theorem fmt_nested_binary (outer inner a b c : Node) (op1 op2 : string)
    (P1 P2 : Z) (atxt btxt ctxt : string) (ap bp cp : Z) :
  binary_node outer a op1 inner P1 ->
  binary_node inner b op2 c P2 ->
  fmt a = Ok (atxt, ap) ->
  fmt b = Ok (btxt, bp) ->
  fmt c = Ok (ctxt, cp) ->
  exists itxt,
    let lhs := (if ap <? P1 then "(" +:+ atxt +:+ ")" else atxt)
               +:+ " " +:+ op1 +:+ " " in
    fmt inner = Ok (itxt, P2)
    /\ (P1 < P2 -> fmt outer = Ok (lhs +:+ itxt, P1))
    /\ (P2 < P1 -> fmt outer = Ok (lhs +:+ "(" +:+ itxt +:+ ")", P1))
    /\ (P2 = P1 ->
        fmt outer =
          Ok (lhs +:+ (if implication_node outer op1
                       then "(" +:+ itxt +:+ ")" else itxt), P1))
    /\ (forall grouped,
           binary_node grouped a op1 (Tree "exprs" [inner]) P1 ->
           fmt grouped = Ok (lhs +:+ "(" +:+ itxt +:+ ")", P1)).
Proof.
  intros Houter Hinner Ha Hb Hc.
  pose proof (fmt_binary_node _ _ _ _ _ _ _ _ _ Hinner Hb Hc) as Hi.
  eexists. cbv zeta. split; [exact Hi|].
  pose proof (fmt_binary_node _ _ _ _ _ _ _ _ _ Houter Ha Hi) as Ho.
  rewrite Ho. unfold right_parenthesized, paren. rewrite !PyStrFacts.app_assoc.
  split_and!.
  - intros H. destruct (implication_node outer op1);
      [destruct (Z.leb_spec P2 P1) | destruct (Z.ltb_spec P2 P1)];
      (reflexivity || lia).
  - intros H. destruct (implication_node outer op1);
      [destruct (Z.leb_spec P2 P1) | destruct (Z.ltb_spec P2 P1)];
      (reflexivity || lia).
  - intros H. destruct (implication_node outer op1);
      [destruct (Z.leb_spec P2 P1) | destruct (Z.ltb_spec P2 P1)];
      (reflexivity || lia).
  - intros grouped Hg.
    pose proof (binary_node_range _ _ _ _ _ Hg) as HP.
    rewrite (fmt_binary_node _ _ _ _ _ _ _ _ _ Hg Ha (fmt_exprs_group _ _ _ Hi)).
    unfold right_parenthesized, paren. rewrite !PyStrFacts.app_assoc.
    destruct (implication_node grouped op1);
      [destruct (Z.leb_spec 100 P1) | destruct (Z.ltb_spec 100 P1)];
      (reflexivity || lia).
Qed.

Lemma fmt_nested_binary_witness :
  binary_node
    (FmtExample.bin (FmtExample.ID "a") "*"
       (FmtExample.bin (FmtExample.ID "b") "+" (FmtExample.ID "c")))
    (FmtExample.ID "a") "*"
    (FmtExample.bin (FmtExample.ID "b") "+" (FmtExample.ID "c")) 8
  /\ binary_node
       (FmtExample.bin (FmtExample.ID "b") "+" (FmtExample.ID "c"))
       (FmtExample.ID "b") "+" (FmtExample.ID "c") 7
  /\ fmt (FmtExample.ID "a") = Ok ("a", 100)
  /\ fmt (FmtExample.ID "b") = Ok ("b", 100)
  /\ fmt (FmtExample.ID "c") = Ok ("c", 100)
  /\ exists itxt,
       fmt (FmtExample.bin (FmtExample.ID "b") "+" (FmtExample.ID "c")) = Ok (itxt, 7)
       /\ fmt (FmtExample.bin (FmtExample.ID "a") "*"
                 (FmtExample.bin (FmtExample.ID "b") "+" (FmtExample.ID "c")))
          = Ok (("a" +:+ " " +:+ "*" +:+ " ") +:+ "(" +:+ itxt +:+ ")", 8).
Proof.
  assert (Ho : binary_node
                 (FmtExample.bin (FmtExample.ID "a") "*"
                    (FmtExample.bin (FmtExample.ID "b") "+" (FmtExample.ID "c")))
                 (FmtExample.ID "a") "*"
                 (FmtExample.bin (FmtExample.ID "b") "+" (FmtExample.ID "c")) 8).
  { change 8 with (default 1 (BIN_PRECEDENCE !! "*")). apply binary_arith; by left. }
  assert (Hi : binary_node
                 (FmtExample.bin (FmtExample.ID "b") "+" (FmtExample.ID "c"))
                 (FmtExample.ID "b") "+" (FmtExample.ID "c") 7).
  { change 7 with (default 1 (BIN_PRECEDENCE !! "+")). apply binary_arith; by left. }
  refine (conj Ho (conj Hi (conj eq_refl (conj eq_refl (conj eq_refl _))))).
  destruct (fmt_nested_binary _ _ _ _ _ _ _ _ _ "a" "b" "c" 100 100 100
              Ho Hi eq_refl eq_refl eq_refl) as (itxt & Hinner & _ & Hloose & _).
  exists itxt. split; [exact Hinner|]. apply Hloose. lia.
Defined.

(** The claim C1 as stated fails at equal precedence: in [a - (b - c)]
    both operators are at level 7 and no parentheses are produced, whereas
    [a * (b - c)], with a strictly looser inner operator, gets them. *)
Lemma fmt_nested_binary_counterexample :
  BIN_PRECEDENCE !! "-" = Some 7
  /\ fmt (FmtExample.bin (FmtExample.ID "b") "-" (FmtExample.ID "c")) = Ok ("b - c", 7)
  /\ fmt (FmtExample.bin (FmtExample.ID "a") "-"
            (FmtExample.bin (FmtExample.ID "b") "-" (FmtExample.ID "c")))
     = Ok ("a - b - c", 7)
  /\ fmt (FmtExample.bin (FmtExample.ID "a") "-"
            (FmtExample.bin (FmtExample.ID "b") "-" (FmtExample.ID "c")))
     <> Ok ("a - (b - c)", 7)
  /\ fmt (FmtExample.bin (FmtExample.ID "a") "*"
            (FmtExample.bin (FmtExample.ID "b") "-" (FmtExample.ID "c")))
     = Ok ("a * (b - c)", 8).
Proof. split_and!; try reflexivity. discriminate. Qed.

(** ** The symbol-aware renderer: arguments of a call *)

(** [children.index(exprs_node)] is the position of the first [exprs]
    child, so the callee name is the last identifier before that child. *)
Lemma node_eqb_refl (n : Node) : node_eqb n n = true.
Proof.
  induction n as [ty v | d ch IH] using Node_ind'.
  - cbn. by rewrite !String.eqb_refl.
  - cbn [node_eqb]. rewrite String.eqb_refl. cbn [andb].
    induction IH as [|x l Hx _ IHl]; [reflexivity|]. by rewrite Hx, IHl.
Qed.

Lemma cutoff_idx_first_exprs (pre : list Node) (ech : list Node) (post : list Node) :
  forallb not_exprs pre = true ->
  cutoff_idx (pre ++ Tree "exprs" ech :: post) = length pre.
Proof.
  intros Hpre. unfold cutoff_idx, exprs_node_of.
  assert (Hfind : find (is_tree_named "exprs") (pre ++ Tree "exprs" ech :: post)
                  = Some (Tree "exprs" ech)).
  { induction pre as [|c pre IH]; [reflexivity|].
    cbn [forallb] in Hpre. apply andb_true_iff in Hpre as [Hc Hpre].
    apply negb_true_iff in Hc. cbn [app find]. rewrite Hc. by apply IH. }
  rewrite Hfind. clear Hfind.
  induction pre as [|c pre IH]; cbn [app py_index length].
  - by rewrite node_eqb_refl.
  - cbn [forallb] in Hpre. apply andb_true_iff in Hpre as [Hc Hpre].
    apply negb_true_iff in Hc.
    assert (Hne : node_eqb c (Tree "exprs" ech) = false).
    { destruct c as [ty v | d' ch']; [reflexivity|].
      cbn [node_eqb]. cbn [is_tree_named] in Hc. by rewrite Hc. }
    rewrite Hne. specialize (IH Hpre).
    destruct (py_index (Tree "exprs" ech) (pre ++ Tree "exprs" ech :: post));
      simpl in *; by rewrite ?IH.
Qed.

Lemma func_name_of_prefix (pre : list Node) (ech : list Node) (post : list Node) :
  forallb not_exprs pre = true ->
  func_name_of (pre ++ Tree "exprs" ech :: post) =
    last (map token_value (List.filter (is_token_typed "ID") pre)).
Proof.
  intros Hpre. unfold func_name_of, ids_before.
  rewrite cutoff_idx_first_exprs by done.
  by rewrite firstn_app, Nat.sub_diag, firstn_all, app_nil_r.
Qed.

Section CommaRunsFacts.
Context {A B : Type} (comma : A -> bool) (g : A -> B) (comma' : B -> bool).
Hypothesis comma_g : forall x, comma' (g x) = comma x.

Lemma comma_runs_map (l cur : list A) :
  comma_runs comma' (map g l) (map g cur) = map (map g) (comma_runs comma l cur).
Proof.
  revert cur. induction l as [|x l IH]; intros cur; cbn [map comma_runs].
  - destruct cur; reflexivity.
  - rewrite comma_g. destruct (comma x).
    + destruct cur as [|y cur]; cbn [map]; [apply (IH [])|].
      f_equal. apply (IH []).
    + rewrite <- IH. by rewrite map_app.
Qed.
End CommaRunsFacts.

Lemma render_runs_nodes (sol_symbols : SymbolTable) (nodes : list Node) :
  render_runs (map (fun c => (c, _flatten_expr_with_symbols sol_symbols c)) nodes) =
  map (fun cur => _flatten_expr_with_symbols_list cur sol_symbols)
      (comma_runs is_comma nodes []).
Proof.
  unfold render_runs.
  pose proof (comma_runs_map (B := Node * string) is_comma
                (fun c => (c, _flatten_expr_with_symbols sol_symbols c))
                (fun p => is_comma (fst p)) (fun _ => eq_refl) nodes []) as Hruns.
  change (map _ []) with (@nil (Node * string)) in Hruns. rewrite Hruns.
  rewrite map_map. apply map_ext. intros run.
  unfold join_fixup, _flatten_expr_with_symbols_list. by rewrite map_map.
Qed.

(** The search of the [function_call] branch finds the first [exprs] child. *)
Lemma next_exprs_args (sol_symbols : SymbolTable) (children : list Node) :
  default []
    (next_map
       (fun ch =>
          match ch with
          | Tree d exprs_children =>
              if String.eqb d "exprs" then
                Some (render_runs
                        (map (fun c => (c, _flatten_expr_with_symbols sol_symbols c))
                             exprs_children))
              else None
          | Token _ _ => None
          end) children)
  = call_args children sol_symbols.
Proof.
  unfold call_args, exprs_node_of.
  induction children as [|ch children IH]; [reflexivity|].
  cbn [next_map find]. destruct ch as [ty v | d ech]; cbn [is_tree_named].
  - exact IH.
  - destruct (String.eqb d "exprs"); [|exact IH].
    cbn [default tree_children]. apply render_runs_nodes.
Qed.

Lemma flatten_function_call (sol_symbols : SymbolTable) (children : list Node) :
  _flatten_expr_with_symbols sol_symbols (Tree "function_call" children) =
    match func_name_of children with
    | None => ""
    | Some fname => _render_call fname (call_args children sol_symbols) sol_symbols
    end.
Proof.
  cbn [_flatten_expr_with_symbols String.eqb Ascii.eqb Bool.eqb].
  destruct (func_name_of children); [|reflexivity].
  by rewrite next_exprs_args.
Qed.

Lemma flatten_list_strip (nodes : list Node) (sol_symbols : SymbolTable) :
  PyStr.strip (_flatten_expr_with_symbols_list nodes sol_symbols) =
  _flatten_expr_with_symbols_list nodes sol_symbols.
Proof. unfold _flatten_expr_with_symbols_list. apply PyStrFacts.strip_idem. Qed.

Lemma filter_all_tokens (l : list Node) :
  forallb is_Token l = true -> List.filter is_Token l = l.
Proof.
  induction l as [|x l IH]; [reflexivity|]. cbn [forallb List.filter].
  intros [Hx Hl]%andb_true_iff. rewrite Hx. by rewrite IH.
Qed.

Lemma existsb_comma_tokens (l : list Node) :
  forallb is_Token l = true ->
  existsb (fun t => String.eqb (token_value t) ",") l = existsb is_comma l.
Proof.
  induction l as [|x l IH]; [reflexivity|]. cbn [forallb existsb].
  intros [Hx Hl]%andb_true_iff. rewrite IH by done.
  destruct x; [reflexivity|discriminate].
Qed.

(** C2 (as amended): the arguments passed to [_render_call] for a
    [function_call] node are the symbol-aware renderings of the runs of
    direct children of [exprs] between comma tokens (the splitter's result
    is discarded); they coincide with the splitter's output when the call
    has no [exprs] child, or when all children of [exprs] are tokens and
    one of them is a comma. *)
Theorem flatten_call_arguments (sol_symbols : SymbolTable) (children : list Node)
    (fname : string) :
  func_name_of children = Some fname ->
  _flatten_expr_with_symbols sol_symbols (Tree "function_call" children) =
    _render_call fname (call_args children sol_symbols) sol_symbols
  /\ (match exprs_node_of children with
      | Some exprs_node =>
          call_args children sol_symbols =
            map (fun cur => _flatten_expr_with_symbols_list cur sol_symbols)
                (comma_runs is_comma (tree_children exprs_node) [])
      | None => call_args children sol_symbols = []
      end)
  /\ (exprs_node_of children = None ->
      call_args children sol_symbols = _split_call_args None sol_symbols)
  /\ (forall exprs_node,
         exprs_node_of children = Some exprs_node ->
         forallb is_Token (tree_children exprs_node) = true ->
         existsb is_comma (tree_children exprs_node) = true ->
         call_args children sol_symbols =
           _split_call_args (Some exprs_node) sol_symbols).
Proof.
  intros Hname. split; [|split; [|split]].
  - by rewrite flatten_function_call, Hname.
  - unfold call_args. by destruct (exprs_node_of children).
  - intros Hnone. unfold call_args. by rewrite Hnone.
  - intros exprs_node Hsome Htok Hcomma. unfold call_args, _split_call_args.
    rewrite Hsome. cbv zeta.
    assert (Hno : existsb is_Tree (tree_children exprs_node) = false).
    { revert Htok. generalize (tree_children exprs_node).
      induction l as [|x l IH]; [reflexivity|]. cbn [forallb existsb].
      intros [Hx Hl]%andb_true_iff. rewrite IH by done. by destruct x. }
    rewrite Hno, filter_all_tokens by done.
    rewrite existsb_comma_tokens, Hcomma by done.
    destruct (tree_children exprs_node) as [|t l] eqn:E; [discriminate|].
    rewrite map_map. apply map_ext. intros cur. by rewrite flatten_list_strip.
Qed.

Lemma flatten_call_arguments_witness :
  func_name_of CallExample.transfer_call = Some "transfer"
  /\ _flatten_expr_with_symbols ScanExample.sym (Tree "function_call" CallExample.transfer_call)
     = _render_call "transfer" (call_args CallExample.transfer_call ScanExample.sym)
         ScanExample.sym.
Proof.
  assert (H : func_name_of CallExample.transfer_call = Some "transfer") by reflexivity.
  refine (conj H _).
  exact (proj1 (flatten_call_arguments ScanExample.sym CallExample.transfer_call
                  "transfer" H)).
Defined.

(** The claim C2 as stated fails on [balances(x + 1, y)]: the renderer
    passes the two arguments ["x + 1"; "y"], the splitter returns the single
    argument ["x + 1, y"]; and on [balances(a b)] the renderer passes
    ["a b"] where the splitter returns ["a"; "b"]. *)
Lemma flatten_call_arguments_counterexample :
  (func_name_of CallExample.balances_call = Some "balances"
   /\ call_args CallExample.balances_call ScanExample.sym = ["x + 1"; "y"]
   /\ _split_call_args (exprs_node_of CallExample.balances_call) ScanExample.sym
      = ["x + 1, y"]
   /\ _flatten_expr_with_symbols ScanExample.sym
        (Tree "function_call" CallExample.balances_call) = "balances[x + 1][y]"
   /\ _render_call "balances"
        (_split_call_args (exprs_node_of CallExample.balances_call) ScanExample.sym)
        ScanExample.sym = "balances[x + 1, y]")
  /\ (call_args CallExample.balances_bare ScanExample.sym = ["a b"]
      /\ _split_call_args (exprs_node_of CallExample.balances_bare) ScanExample.sym
         = ["a"; "b"]).
Proof. split_and!; vm_compute; reflexivity. Qed.

(** ** The call-argument splitter *)

Lemma flatten_tokens (sol_symbols : SymbolTable) (run : list Node) :
  forallb is_Token run = true ->
  _flatten_expr_with_symbols_list run sol_symbols = join_fixup (map token_value run).
Proof.
  intros Hrun. unfold _flatten_expr_with_symbols_list, join_fixup.
  do 3 f_equal. induction run as [|t run IH]; [reflexivity|].
  cbn [forallb] in Hrun. apply andb_true_iff in Hrun as [Ht Hrun].
  cbn [map]. rewrite IH by done. destruct t; [reflexivity|discriminate].
Qed.

Lemma no_tree_all_tokens (l : list Node) :
  existsb is_Tree l = false -> forallb is_Token l = true.
Proof.
  induction l as [|x l IH]; [reflexivity|]. cbn [forallb existsb].
  intros [Hx Hl]%orb_false_iff. rewrite IH by done. by destruct x.
Qed.

(** The splitter on an [exprs] node whose children are all tokens. *)
Lemma split_tokens (d : string) (children : list Node) (sol_symbols : SymbolTable) :
  existsb is_Tree children = false ->
  _split_call_args (Some (Tree d children)) sol_symbols =
    if existsb is_comma children then
      map (fun cur => _flatten_expr_with_symbols_list cur sol_symbols)
          (comma_runs is_comma children [])
    else if forallb _is_atom_token children then map token_value children
    else [_flatten_expr_with_symbols_list children sol_symbols].
Proof.
  intros Hno. pose proof (no_tree_all_tokens _ Hno) as Htok.
  unfold _split_call_args. cbn [tree_children]. rewrite Hno.
  rewrite filter_all_tokens, existsb_comma_tokens by done.
  destruct children as [|t l]; [reflexivity|].
  destruct (existsb is_comma (t :: l)).
  - rewrite map_map. apply map_ext. intros cur. apply flatten_list_strip.
  - destruct (forallb _is_atom_token (t :: l)); [reflexivity|].
    by rewrite flatten_list_strip.
Qed.

Lemma atom_arg_inv (t : Node) :
  atom_arg t = true ->
  is_Token t = true /\ is_comma t = false /\ _is_atom_token t = true.
Proof.
  unfold atom_arg. intros [Hat Hc%negb_true_iff]%andb_true_iff.
  destruct t as [ty v|]; [|discriminate]. by repeat split.
Qed.

Lemma plain_atom_arg (toks : list Node) :
  forallb plain_atom toks = true -> forallb atom_arg toks = true.
Proof.
  induction toks as [|t toks IH]; [reflexivity|]. cbn [forallb].
  intros [[Ht _]%andb_true_iff Hall]%andb_true_iff. by rewrite Ht, IH.
Qed.

Lemma comma_runs_with_commas (t : Node) (toks : list Node) :
  forallb atom_arg (t :: toks) = true ->
  comma_runs is_comma (with_commas (t :: toks)) [] = map (fun x => [x]) (t :: toks).
Proof.
  revert t. induction toks as [|t2 toks IH]; intros t Hall;
    cbn [forallb] in Hall; apply andb_true_iff in Hall as [Ht Hall];
    destruct (atom_arg_inv _ Ht) as (_ & Hc & _).
  - cbn [with_commas comma_runs]. by rewrite Hc.
  - change (with_commas (t :: t2 :: toks))
      with (t :: Token "COMMA" "," :: with_commas (t2 :: toks)).
    cbn [comma_runs]. rewrite Hc. cbn [app is_comma String.eqb Ascii.eqb Bool.eqb].
    cbn [map]. f_equal. by apply IH.
Qed.

Lemma with_commas_tokens (toks : list Node) :
  forallb atom_arg toks = true -> existsb is_Tree (with_commas toks) = false.
Proof.
  induction toks as [|t toks IH]; [reflexivity|].
  cbn [forallb]. intros [Ht Hall]%andb_true_iff.
  destruct (atom_arg_inv _ Ht) as (Htok & _).
  destruct toks as [|t2 toks].
  - cbn. by destruct t.
  - change (with_commas (t :: t2 :: toks))
      with (t :: Token "COMMA" "," :: with_commas (t2 :: toks)).
    cbn [existsb is_Tree]. rewrite IH by done. by destruct t.
Qed.

(** Two or more atomic tokens separated by commas: the comma branch. *)
Lemma split_with_commas_fixups (d : string) (t t2 : Node) (toks : list Node)
    (sol_symbols : SymbolTable) :
  forallb atom_arg (t :: t2 :: toks) = true ->
  _split_call_args (Some (Tree d (with_commas (t :: t2 :: toks)))) sol_symbols =
    map (fun x => join_fixup [token_value x]) (t :: t2 :: toks).
Proof.
  intros Hall. rewrite split_tokens by by apply with_commas_tokens.
  rewrite comma_runs_with_commas by done.
  change (with_commas (t :: t2 :: toks))
    with (t :: Token "COMMA" "," :: with_commas (t2 :: toks)).
  cbn [existsb is_comma String.eqb Ascii.eqb Bool.eqb]. rewrite orb_true_r.
  rewrite map_map. revert Hall. generalize (t :: t2 :: toks). intros l Hall.
  induction l as [|x l IH]; [reflexivity|].
  cbn [forallb] in Hall. apply andb_true_iff in Hall as [Hx Hall].
  destruct (atom_arg_inv _ Hx) as (Htok & _).
  cbn [map]. rewrite IH by done. f_equal.
  rewrite flatten_tokens by (cbn; by rewrite Htok). reflexivity.
Qed.

Lemma split_with_commas (d : string) (toks : list Node) (sol_symbols : SymbolTable) :
  forallb plain_atom toks = true ->
  _split_call_args (Some (Tree d (with_commas toks))) sol_symbols = map token_value toks.
Proof.
  intros Hall. pose proof (plain_atom_arg _ Hall) as Harg.
  destruct toks as [|t [|t2 toks]].
  - reflexivity.
  - rewrite split_tokens by by apply with_commas_tokens.
    cbn [forallb] in Harg. apply andb_true_iff in Harg as [Ht _].
    destruct (atom_arg_inv _ Ht) as (_ & Hc & Hat).
    cbn [with_commas existsb forallb]. by rewrite Hc, Hat.
  - rewrite split_with_commas_fixups by done.
    clear Harg. revert Hall. generalize (t :: t2 :: toks). intros l Hall.
    induction l as [|x l IH]; [reflexivity|].
    cbn [forallb] in Hall. apply andb_true_iff in Hall as [Hx Hall].
    apply andb_true_iff in Hx as [_ Hx]. apply String.eqb_eq in Hx.
    cbn [map]. by rewrite IH, Hx.
Qed.

(** C6 (as amended): the splitter's priority order on an [exprs] node:
    (1) a [Tree] child makes the whole content one argument; (2) otherwise
    a comma token makes every run of tokens between commas one argument;
    (3) otherwise, when every token is atomic, each token is its own
    argument; (4) otherwise the whole run is one argument.  In particular
    atomic tokens separated by commas come back one argument per token,
    each the token's text after the fix-ups and the strip, hence the text
    itself when they leave it unchanged, as for [a, b, c]. *)
Theorem split_call_args_priority (d : string) (children : list Node)
    (sol_symbols : SymbolTable) :
  (existsb is_Tree children = true ->
   _split_call_args (Some (Tree d children)) sol_symbols =
     [_flatten_expr_with_symbols_list children sol_symbols])
  /\ (existsb is_Tree children = false ->
      existsb is_comma children = true ->
      _split_call_args (Some (Tree d children)) sol_symbols =
        map (fun run => _flatten_expr_with_symbols_list run sol_symbols)
            (comma_runs is_comma children []))
  /\ (existsb is_Tree children = false ->
      existsb is_comma children = false ->
      forallb _is_atom_token children = true ->
      _split_call_args (Some (Tree d children)) sol_symbols = map token_value children)
  /\ (existsb is_Tree children = false ->
      existsb is_comma children = false ->
      forallb _is_atom_token children = false ->
      _split_call_args (Some (Tree d children)) sol_symbols =
        [_flatten_expr_with_symbols_list children sol_symbols])
  /\ (forall t t2 toks,
         forallb atom_arg (t :: t2 :: toks) = true ->
         _split_call_args (Some (Tree d (with_commas (t :: t2 :: toks)))) sol_symbols =
           map (fun x => join_fixup [token_value x]) (t :: t2 :: toks))
  /\ (forall toks,
         forallb plain_atom toks = true ->
         _split_call_args (Some (Tree d (with_commas toks))) sol_symbols =
           map token_value toks)
  /\ _split_call_args (Some (Tree d [Token "ID" "a"; Token "COMMA" ",";
                                     Token "ID" "b"; Token "COMMA" ",";
                                     Token "ID" "c"])) sol_symbols
     = ["a"; "b"; "c"].
Proof.
  split_and!.
  - intros Htree. unfold _split_call_args. cbn [tree_children]. rewrite Htree.
    by rewrite flatten_list_strip.
  - intros Hno Hcomma. by rewrite split_tokens, Hcomma.
  - intros Hno Hcomma Hatom. by rewrite split_tokens, Hcomma, Hatom.
  - intros Hno Hcomma Hatom. by rewrite split_tokens, Hcomma, Hatom.
  - intros t t2 toks Hall. by apply split_with_commas_fixups.
  - intros toks Hall. by apply split_with_commas.
  - apply (split_with_commas d [Token "ID" "a"; Token "ID" "b"; Token "ID" "c"]).
    vm_compute. reflexivity.
Qed.

Lemma split_call_args_priority_witness :
  forallb plain_atom
    [Token "ID" "addr"; Token "INTEGER_LITERAL" "100"; Token "STRING_LITERAL" "'ok'"] = true
  /\ _split_call_args
       (Some (Tree "exprs"
                (with_commas [Token "ID" "addr"; Token "INTEGER_LITERAL" "100";
                              Token "STRING_LITERAL" "'ok'"])))
       ScanExample.sym
     = map token_value [Token "ID" "addr"; Token "INTEGER_LITERAL" "100";
                        Token "STRING_LITERAL" "'ok'"].
Proof.
  assert (H : forallb plain_atom
                [Token "ID" "addr"; Token "INTEGER_LITERAL" "100";
                 Token "STRING_LITERAL" "'ok'"] = true) by (vm_compute; reflexivity).
  refine (conj H _).
  exact (proj1 (proj2 (proj2 (proj2 (proj2 (proj2
           (split_call_args_priority "exprs" [] ScanExample.sym)))))) _ H).
Defined.

(** The claim C6 as stated fails on [f('x ,y', b, c)], three atomic tokens
    separated by commas: the first argument comes back as ['x,y'], not as
    the token's text. *)
Lemma split_call_args_priority_counterexample :
  forallb _is_atom_token CallExample.literal_args = true
  /\ _split_call_args (Some (Tree "exprs" (with_commas CallExample.literal_args)))
       ScanExample.sym = ["'x,y'"; "b"; "c"]
  /\ _split_call_args (Some (Tree "exprs" (with_commas CallExample.literal_args)))
       ScanExample.sym <> map token_value CallExample.literal_args.
Proof. split_and!; [reflexivity | vm_compute; reflexivity | discriminate]. Qed.

(** ** Coverage of the leaves by the splitter *)

Lemma comma_runs_concat (l cur : list Node) :
  concat (comma_runs is_comma l cur) = cur ++ List.filter not_comma l.
Proof.
  revert cur. induction l as [|x l IH]; intros cur; cbn [comma_runs List.filter].
  - destruct cur; cbn; by rewrite ?app_nil_r.
  - unfold not_comma at 1. destruct (is_comma x); cbn [negb].
    + destruct cur as [|y cur]; [apply (IH [])|].
      cbn [concat]. by rewrite (IH []).
    + rewrite IH. by rewrite <- app_assoc.
Qed.

Lemma comma_runs_nonempty (l cur : list Node) :
  Forall (fun run => run <> []) (comma_runs is_comma l cur).
Proof.
  revert cur. induction l as [|x l IH]; intros cur; cbn [comma_runs].
  - destruct cur; by repeat constructor.
  - destruct (is_comma x); [|apply IH].
    destruct cur; [apply IH|]. constructor; [done|apply IH].
Qed.

Lemma filter_no_comma (l : list Node) :
  existsb is_comma l = false -> List.filter not_comma l = l.
Proof.
  induction l as [|x l IH]; [reflexivity|]. cbn [existsb List.filter].
  intros [Hx Hl]%orb_false_iff. unfold not_comma at 1. rewrite Hx. cbn [negb].
  by rewrite IH.
Qed.

(** C7 (as amended): when every child of [exprs] is a token, the tokens
    other than commas are divided, in order, into consecutive non-empty
    runs, one per returned argument, and each argument is the rendering of
    its own run (the token's text itself for a run of one atomic token);
    comma tokens separate the runs and appear in no argument. *)
Theorem split_call_args_coverage (d : string) (children : list Node)
    (sol_symbols : SymbolTable) :
  existsb is_Tree children = false ->
  exists runs : list (list Node),
    concat runs = List.filter not_comma children
    /\ Forall (fun run => run <> []) runs
    /\ Forall2
         (fun run arg =>
            arg = _flatten_expr_with_symbols_list run sol_symbols
            \/ exists t, run = [t] /\ arg = token_value t)
         runs (_split_call_args (Some (Tree d children)) sol_symbols).
Proof.
  intros Hno. rewrite split_tokens by done.
  destruct (existsb is_comma children) eqn:Hcomma.
  - exists (comma_runs is_comma children []). split_and!.
    + by rewrite comma_runs_concat.
    + apply comma_runs_nonempty.
    + induction (comma_runs is_comma children []) as [|run runs IH];
        cbn [map]; constructor; auto.
  - rewrite filter_no_comma by done.
    destruct (forallb _is_atom_token children) eqn:Hatom.
    + exists (map (fun t => [t]) children). split_and!.
      * clear. induction children as [|x l IH]; [reflexivity|].
        cbn [map concat app]. by rewrite IH.
      * clear. induction children; cbn [map]; constructor; done.
      * clear. induction children as [|x l IH]; cbn [map]; constructor; eauto.
    + exists [children]. split_and!.
      * cbn. by rewrite app_nil_r.
      * repeat constructor. intros ->. discriminate.
      * repeat constructor.
Qed.

Lemma split_call_args_coverage_witness :
  existsb is_Tree (tree_children CoverageExample.pair) = false
  /\ exists runs : list (list Node),
       concat runs = [Token "ID" "a"; Token "ID" "b"]
       /\ Forall2
            (fun run arg =>
               arg = _flatten_expr_with_symbols_list run ScanExample.sym
               \/ exists t, run = [t] /\ arg = token_value t)
            runs (_split_call_args (Some CoverageExample.pair) ScanExample.sym).
Proof.
  assert (H : existsb is_Tree (tree_children CoverageExample.pair) = false)
    by reflexivity.
  refine (conj H _).
  destruct (split_call_args_coverage "exprs" (tree_children CoverageExample.pair)
              ScanExample.sym H) as (runs & Hconcat & _ & Hargs).
  exists runs. split; [exact Hconcat | exact Hargs].
Defined.

(** The claim C7 as stated fails: in [f(a.b(x))] the leaf [a] is under
    [exprs] and occurs in no argument, and in [f(a, b)] the comma leaf
    occurs in no argument. *)
Lemma split_call_args_coverage_counterexample :
  (Token "ID" "a" ∈ scan_values is_Token CoverageExample.dotted
   /\ _split_call_args (Some CoverageExample.dotted) ScanExample.sym = ["b(x)"]
   /\ existsb (contains "a")
        (_split_call_args (Some CoverageExample.dotted) ScanExample.sym) = false)
  /\ (Token "COMMA" "," ∈ scan_values is_Token CoverageExample.pair
      /\ _split_call_args (Some CoverageExample.pair) ScanExample.sym = ["a"; "b"]
      /\ existsb (contains ",")
           (_split_call_args (Some CoverageExample.pair) ScanExample.sym) = false).
Proof.
  split_and!; try (vm_compute; reflexivity).
  - vm_compute. apply list_elem_of_here.
  - vm_compute. apply list_elem_of_further, list_elem_of_here.
Qed.

(** ** Rule parameters *)

Lemma find_separators (p : Node -> bool) (sep l : list Node) :
  (forall t, separator t = true -> p t = false) ->
  forallb separator sep = true ->
  find p (sep ++ l) = find p l.
Proof.
  intros Hp. induction sep as [|t sep IH]; [reflexivity|].
  cbn [forallb app find]. intros [Ht Hsep]%andb_true_iff.
  rewrite (Hp t Ht). by apply IH.
Qed.

Lemma param_node_records (sep : list Node) (p : ParamDecl) :
  forallb separator sep = true ->
  named p = true ->
  _add_param (find (is_tree_named "cvl_type") (tree_children (param_node sep p)))
             (find (is_token_typed "ID") (tree_children (param_node sep p)))
  = [record_of p].
Proof.
  intros Hsep Hnamed. cbn [param_node tree_children].
  rewrite !find_separators; try done.
  - unfold decl_children, record_of, named in *.
    destruct (decl_location p), (decl_name p) as [n|]; cbn; try reflexivity;
      unfold token_truthy; cbn [token_value]; by rewrite Hnamed.
  - intros t [Ht Hid]%andb_true_iff. by apply negb_true_iff in Hid.
  - intros t [Ht _]%andb_true_iff. by destruct t.
Qed.

Lemma first_name_tok_decl (first : ParamDecl) (params : list Node) :
  Forall (fun n => is_tree_named "param" n = true) params ->
  first_name_tok (decl_children first ++ params) false =
    option_map (Token "ID") (decl_name first).
Proof.
  intros Hparams. unfold decl_children.
  assert (Hrest : first_name_tok params true = None).
  { destruct Hparams as [|n params Hn _]; [reflexivity|].
    cbn [first_name_tok negb andb]. by rewrite Hn. }
  destruct (decl_location first), (decl_name first); cbn; try exact Hrest; reflexivity.
Qed.

Lemma flat_map_params (sep : list Node) (rest : list ParamDecl) :
  forallb separator sep = true ->
  forallb named rest = true ->
  flat_map
    (fun ch =>
       if is_tree_named "param" ch then
         _add_param (find (is_tree_named "cvl_type") (tree_children ch))
                    (find (is_token_typed "ID") (tree_children ch))
       else [])
    (map (param_node sep) rest)
  = map record_of rest.
Proof.
  intros Hsep. induction rest as [|p rest IH]; [reflexivity|].
  cbn [forallb]. intros [Hp Hrest]%andb_true_iff.
  cbn [map flat_map]. rewrite IH by done.
  change (is_tree_named "param" (param_node sep p)) with true. cbv iota.
  by rewrite param_node_records.
Qed.

Lemma find_first_type (pre : list Node) (ty : Node) (post : list Node) :
  forallb before_type pre = true ->
  is_tree_named "cvl_type" ty = true ->
  find (is_tree_named "cvl_type") (pre ++ ty :: post) = Some ty.
Proof.
  intros Hpre Hty. induction pre as [|c pre IH]; cbn [app find].
  - by rewrite Hty.
  - cbn [forallb] in Hpre. apply andb_true_iff in Hpre as [Hc Hpre].
    apply andb_true_iff in Hc as [Hc _]. apply negb_true_iff in Hc.
    rewrite Hc. by apply IH.
Qed.

Lemma first_name_tok_seen (mid : list Node) (post : list Node) :
  forallb before_name mid = true ->
  first_name_tok (mid ++ post) true = first_name_tok post true.
Proof.
  induction mid as [|c mid IH]; [reflexivity|].
  cbn [forallb app first_name_tok negb andb].
  intros [[Hp Hid]%andb_true_iff Hmid]%andb_true_iff.
  apply negb_true_iff in Hp, Hid. rewrite Hp, Hid. by apply IH.
Qed.

Lemma first_name_tok_unseen (pre : list Node) (ty : list Node) (post : list Node) :
  forallb before_type pre = true ->
  first_name_tok (pre ++ Tree "cvl_type" ty :: post) false = first_name_tok post true.
Proof.
  induction pre as [|c pre IH]; [reflexivity|].
  cbn [forallb app first_name_tok negb andb].
  intros [[Hty Hp]%andb_true_iff Hpre]%andb_true_iff.
  apply negb_true_iff in Hty, Hp. rewrite Hty, Hp. by apply IH.
Qed.

(** C9: for a parameter list of the grammar, [_extract_rule_params]
    returns one record per declaration, in declaration order: the first
    from the leading [cvl_type] and the identifier that follows it, each
    further one from its [param] sub-node; the type is the flattened
    [cvl_type] and a declaration without identifier has no name.  On any
    tree the first record is that of the leading [cvl_type], named by the
    first identifier token after it and before any [param] node, and
    unnamed when a [param] node or the end comes first. *)
Theorem extract_rule_params_order (sep : list Node) (first : ParamDecl)
    (rest : list ParamDecl) :
  (forallb separator sep = true ->
   forallb named (first :: rest) = true ->
   _extract_rule_params (Some (params_node sep first rest)) =
     map record_of (first :: rest))
  /\ (forall d pre ty mid n post,
         forallb before_type pre = true ->
         forallb before_name mid = true ->
         n <> "" ->
         exists others,
           _extract_rule_params
             (Some (Tree d (pre ++ Tree "cvl_type" ty :: mid ++ Token "ID" n :: post)))
           = {| p_type := _flatten_tokens_only (Tree "cvl_type" ty);
                p_name := Some n |} :: others)
  /\ (forall d pre ty mid post,
         forallb before_type pre = true ->
         forallb before_name mid = true ->
         Forall (fun c => is_tree_named "param" c = true) post ->
         exists others,
           _extract_rule_params
             (Some (Tree d (pre ++ Tree "cvl_type" ty :: mid ++ post)))
           = {| p_type := _flatten_tokens_only (Tree "cvl_type" ty);
                p_name := None |} :: others).
Proof.
  split_and!.
  - intros Hsep Hnamed. cbn [forallb] in Hnamed.
    apply andb_true_iff in Hnamed as [Hfirst Hrest].
    unfold _extract_rule_params, params_node. cbn [tree_children]. cbv zeta.
    rewrite first_name_tok_decl.
    2:{ clear. induction rest; cbn [map]; constructor; done. }
    rewrite flat_map_app, flat_map_params by done.
    cbn [map]. change (find _ (decl_children first ++ _))
      with (Some (Tree "cvl_type" (decl_type first))).
    assert (Hskip : flat_map
              (fun ch =>
                 if is_tree_named "param" ch then
                   _add_param (find (is_tree_named "cvl_type") (tree_children ch))
                              (find (is_token_typed "ID") (tree_children ch))
                 else [])
              (decl_children first) = []).
    { unfold decl_children. by destruct (decl_location first), (decl_name first). }
    rewrite Hskip. cbn [app]. f_equal.
    unfold _add_param, record_of, named in *. f_equal.
    destruct (decl_name first) as [n|]; [|reflexivity].
    cbn [option_map]. unfold token_truthy. cbn [token_value]. by rewrite Hfirst.
  - intros d pre ty mid n post Hpre Hmid Hn.
    unfold _extract_rule_params. cbn [tree_children]. cbv zeta.
    rewrite find_first_type, first_name_tok_unseen, first_name_tok_seen by done.
    cbn [first_name_tok negb andb is_tree_named is_token_typed
         String.eqb Ascii.eqb Bool.eqb _add_param app].
    unfold token_truthy. cbn [token_value].
    destruct n as [|c n]; [done|]. cbn [PyStr.truthy]. eauto.
  - intros d pre ty mid post Hpre Hmid Hpost.
    unfold _extract_rule_params. cbn [tree_children]. cbv zeta.
    rewrite find_first_type, first_name_tok_unseen, first_name_tok_seen by done.
    assert (Hnone : first_name_tok post true = None).
    { destruct Hpost as [|c post Hc _]; [reflexivity|].
      cbn [first_name_tok negb andb]. by rewrite Hc. }
    rewrite Hnone. cbn [_add_param app]. eauto.
Qed.

Lemma extract_rule_params_order_witness :
  forallb separator [Token "COMMA" ","] = true
  /\ forallb named (ParamsExample.first :: ParamsExample.rest) = true
  /\ _extract_rule_params
       (Some (params_node [Token "COMMA" ","] ParamsExample.first ParamsExample.rest))
     = map record_of (ParamsExample.first :: ParamsExample.rest).
Proof.
  refine (conj eq_refl (conj eq_refl _)).
  exact (proj1 (extract_rule_params_order [Token "COMMA" ","] ParamsExample.first
                  ParamsExample.rest) eq_refl eq_refl).
Defined.

Example extract_rule_params_uint_address_bytes32 :
  _extract_rule_params
    (Some (params_node [] ParamsExample.first ParamsExample.rest))
  = [ {| p_type := "uint"; p_name := Some "a" |};
      {| p_type := "address"; p_name := Some "b" |};
      {| p_type := "bytes32"; p_name := Some "c" |} ].
Proof. reflexivity. Qed.

(** * Further properties of the code *)

(** ** Zero-argument calls *)

Lemma is_tree_named_inv (d : string) (n : Node) :
  is_tree_named d n = true -> exists ch, n = Tree d ch.
Proof.
  destruct n as [ty v | d' ch]; [discriminate|]. cbn.
  intros ->%String.eqb_eq. eauto.
Qed.

Lemma find_is_tree_named (d : string) (l : list Node) (n : Node) :
  find (is_tree_named d) l = Some n -> exists ch, n = Tree d ch.
Proof. intros [_ Hn]%find_some. by apply is_tree_named_inv. Qed.

Lemma no_arguments (children : list Node) (sol_symbols : SymbolTable) :
  match exprs_node_of children with
  | Some e => tree_children e = []
  | None => True
  end ->
  call_args children sol_symbols = []
  /\ _split_call_args (exprs_node_of children) sol_symbols = [].
Proof.
  unfold call_args, _split_call_args.
  destruct (exprs_node_of children) as [e|]; [|done]. by intros ->.
Qed.

(** X1: when [_is_zero_arg_function_call] names a call, the call has no
    argument for the renderer nor for [_get_function_call_info], and it is
    rendered as the bare name for a state variable and as [name()]
    otherwise. *)
Theorem zero_arg_call_rendering (tree : Node) (name : string) (sol_symbols : SymbolTable) :
  _is_zero_arg_function_call tree = Some name ->
  _get_function_call_info tree = (Some name, [])
  /\ call_args (tree_children tree) sol_symbols = []
  /\ _flatten_expr_with_symbols sol_symbols tree =
       if bool_decide (name ∈ state_vars sol_symbols) then name else name +:+ "()".
Proof.
  unfold _is_zero_arg_function_call.
  destruct (is_tree_named "function_call" tree) eqn:Hfc; [|discriminate].
  destruct (is_tree_named_inv _ _ Hfc) as [children ->].
  cbn [negb tree_children].
  destruct (func_name_of children) as [f|] eqn:Hname; [|discriminate].
  destruct (PyStr.truthy f); [|discriminate]. cbn [andb]. intros Hzero.
  assert (Hex : match exprs_node_of children with
                | Some e => tree_children e = []
                | None => True
                end).
  { destruct (exprs_node_of children) as [e|]; [|done].
    destruct (tree_children e); [done|discriminate]. }
  assert (f = name) as ->.
  { destruct (exprs_node_of children) as [e|];
      [destruct (length (tree_children e) =? 0)%nat|]; congruence. }
  destruct (no_arguments children sol_symbols Hex) as [Hca _].
  destruct (no_arguments children no_symbols Hex) as [_ Hsplit].
  unfold _get_function_call_info. cbn [tree_children].
  rewrite Hname, Hsplit, flatten_function_call, Hname, Hca.
  split_and!; try done. unfold _render_call.
  case_bool_decide; [done|]. by rewrite PyStrFacts.app_assoc.
Qed.

Lemma zero_arg_call_rendering_witness :
  _is_zero_arg_function_call
    (Tree "function_call" [Token "ID" "owner"; Tree "exprs" []]) = Some "owner"
  /\ _flatten_expr_with_symbols ScanExample.sym
       (Tree "function_call" [Token "ID" "owner"; Tree "exprs" []])
     = if bool_decide ("owner" ∈ state_vars ScanExample.sym)
       then "owner" else "owner" +:+ "()".
Proof.
  refine (conj eq_refl _).
  exact (proj2 (proj2 (zero_arg_call_rendering
                         (Tree "function_call" [Token "ID" "owner"; Tree "exprs" []])
                         "owner" ScanExample.sym eq_refl))).
Defined.

(** ** Calls without a usable name *)

Lemma filter_none (p : Node -> bool) (l : list Node) :
  forallb (fun c => negb (p c)) l = true -> List.filter p l = [].
Proof.
  induction l as [|x l IH]; [reflexivity|]. cbn [forallb List.filter].
  intros [Hx Hl]%andb_true_iff. apply negb_true_iff in Hx. rewrite Hx. by apply IH.
Qed.

(** X2: a [function_call] node without identifier token before its [exprs]
    child is rendered as the empty string by the symbol-aware renderer,
    whatever its arguments and whatever follows [exprs], and the scan makes
    no descriptor for it. *)
Theorem nameless_call_dropped (pre ech post : list Node) (sol_symbols : SymbolTable) :
  forallb not_exprs pre = true ->
  forallb not_id pre = true ->
  _flatten_expr_with_symbols sol_symbols
    (Tree "function_call" (pre ++ Tree "exprs" ech :: post)) = ""
  /\ function_call_entry sol_symbols
       (Tree "function_call" (pre ++ Tree "exprs" ech :: post)) = None.
Proof.
  intros Hpre Hid.
  assert (Hname : func_name_of (pre ++ Tree "exprs" ech :: post) = None).
  { rewrite func_name_of_prefix by done. by rewrite filter_none. }
  split.
  - by rewrite flatten_function_call, Hname.
  - unfold function_call_entry, _get_function_call_info.
    cbn [is_tree_named negb fst tree_children]. rewrite String.eqb_refl.
    cbn [negb]. by rewrite Hname.
Qed.

Lemma nameless_call_dropped_witness :
  forallb not_exprs [Token "LPAR" "("] = true
  /\ forallb not_id [Token "LPAR" "("] = true
  /\ _flatten_expr_with_symbols ScanExample.sym
       (Tree "function_call"
          ([Token "LPAR" "("] ++ Tree "exprs" [Token "ID" "x"] :: [Token "ID" "f"])) = "".
Proof.
  refine (conj eq_refl (conj eq_refl _)).
  exact (proj1 (nameless_call_dropped [Token "LPAR" "("] [Token "ID" "x"]
                  [Token "ID" "f"] ScanExample.sym eq_refl eq_refl)).
Defined.

(** ** Token-only argument lists and trees *)

Lemma flatten_tokens_any (run : list Node) (sym sym' : SymbolTable) :
  forallb is_Token run = true ->
  _flatten_expr_with_symbols_list run sym = _flatten_expr_with_symbols_list run sym'.
Proof. intros Hrun. by rewrite !flatten_tokens. Qed.

Lemma comma_runs_tokens (l cur : list Node) :
  forallb is_Token l = true ->
  forallb is_Token cur = true ->
  Forall (fun run => forallb is_Token run = true) (comma_runs is_comma l cur).
Proof.
  revert cur. induction l as [|x l IH]; intros cur Hl Hcur; cbn [comma_runs].
  - destruct cur; by repeat constructor.
  - cbn [forallb] in Hl. apply andb_true_iff in Hl as [Hx Hl].
    destruct (is_comma x).
    + destruct cur; [by apply IH|]. constructor; [done|by apply IH].
    + apply IH; [done|]. rewrite forallb_app, Hcur. cbn. by rewrite Hx.
Qed.

(** X3: when every child of [exprs] is a token, the splitter's result does
    not depend on the symbol table; the arguments returned by
    [_get_function_call_info], which splits with an empty table, are then
    those of the splitter under any table. *)
Theorem split_tokens_any_table (call_tree : Node) (exprs_node : Node)
    (sym sym' : SymbolTable) :
  exprs_node_of (tree_children call_tree) = Some exprs_node ->
  existsb is_Tree (tree_children exprs_node) = false ->
  _split_call_args (Some exprs_node) sym = _split_call_args (Some exprs_node) sym'
  /\ snd (_get_function_call_info call_tree) = _split_call_args (Some exprs_node) sym.
Proof.
  intros Hex Hno.
  assert (Hany : forall s s', _split_call_args (Some exprs_node) s
                              = _split_call_args (Some exprs_node) s').
  { intros s s'. destruct (find_is_tree_named _ _ _ Hex) as [ech ->].
    cbn [tree_children] in Hno. rewrite !split_tokens by done.
    pose proof (no_tree_all_tokens _ Hno) as Htok.
    destruct (existsb is_comma ech).
    - pose proof (comma_runs_tokens ech [] Htok eq_refl) as Hruns.
      induction Hruns as [|run runs Hrun _ IH]; [reflexivity|].
      cbn [map]. by rewrite IH, (flatten_tokens_any run s s').
    - destruct (forallb _is_atom_token ech); [reflexivity|].
      by rewrite (flatten_tokens_any ech s s'). }
  split; [apply Hany|].
  unfold _get_function_call_info. cbn [snd]. rewrite Hex. apply Hany.
Qed.

Lemma split_tokens_any_table_witness :
  exprs_node_of (tree_children (Tree "function_call" CallExample.transfer_call))
    = Some (Tree "exprs" [Token "ID" "addr"; Token "COMMA" ",";
                          Token "INTEGER_LITERAL" "100"])
  /\ existsb is_Tree [Token "ID" "addr"; Token "COMMA" ",";
                      Token "INTEGER_LITERAL" "100"] = false
  /\ snd (_get_function_call_info (Tree "function_call" CallExample.transfer_call))
     = _split_call_args
         (Some (Tree "exprs" [Token "ID" "addr"; Token "COMMA" ",";
                              Token "INTEGER_LITERAL" "100"])) ScanExample.sym.
Proof.
  refine (conj eq_refl (conj eq_refl _)).
  exact (proj2 (split_tokens_any_table
                  (Tree "function_call" CallExample.transfer_call) _
                  ScanExample.sym ScanExample.sym eq_refl eq_refl)).
Defined.

Lemma scan_values_tokens (l : list Node) :
  forallb is_Token l = true -> flat_map (scan_values is_Token) l = l.
Proof.
  induction l as [|x l IH]; [reflexivity|]. cbn [forallb flat_map].
  intros [Hx Hl]%andb_true_iff. rewrite IH by done. by destruct x.
Qed.

Lemma flatten_each_token (sol_symbols : SymbolTable) (l : list Node) :
  forallb is_Token l = true ->
  map (_flatten_expr_with_symbols sol_symbols) l = map token_value l.
Proof.
  induction l as [|x l IH]; [reflexivity|]. cbn [forallb map].
  intros [Hx Hl]%andb_true_iff. rewrite IH by done. by destruct x.
Qed.

(** X4: on a node whose children are all tokens and whose label is not one
    of the three call-like labels, the symbol-aware renderer, [_flatten_expr]
    and [_flatten_tokens_only] return the same text, under every symbol
    table. *)
Theorem flatten_leaf_tree_agree (d : string) (children : list Node)
    (sol_symbols : SymbolTable) :
  call_like_label d = false ->
  existsb is_Tree children = false ->
  _flatten_expr_with_symbols sol_symbols (Tree d children)
    = _flatten_tokens_only (Tree d children)
  /\ _flatten_expr (Tree d children) = _flatten_tokens_only (Tree d children).
Proof.
  unfold call_like_label.
  intros [[H1 H2]%orb_false_iff H3]%orb_false_iff Hno.
  pose proof (no_tree_all_tokens _ Hno) as Htok. split; [|reflexivity].
  cbn [_flatten_expr_with_symbols _flatten_tokens_only scan_values].
  rewrite H1, H2, H3. by rewrite scan_values_tokens, flatten_each_token.
Qed.

Lemma flatten_leaf_tree_agree_witness :
  call_like_label "cvl_type" = false
  /\ existsb is_Tree [Token "T" "mapping"; Token "LPAR" "("; Token "T" "address";
                      Token "RPAR" ")"] = false
  /\ _flatten_expr_with_symbols ScanExample.sym
       (Tree "cvl_type" [Token "T" "mapping"; Token "LPAR" "("; Token "T" "address";
                         Token "RPAR" ")"])
     = _flatten_tokens_only
         (Tree "cvl_type" [Token "T" "mapping"; Token "LPAR" "("; Token "T" "address";
                           Token "RPAR" ")"]).
Proof.
  refine (conj eq_refl (conj eq_refl _)).
  exact (proj1 (flatten_leaf_tree_agree "cvl_type"
                  [Token "T" "mapping"; Token "LPAR" "("; Token "T" "address";
                   Token "RPAR" ")"] ScanExample.sym eq_refl eq_refl)).
Defined.

(** X5: the token flattener sees only the sequence of leaves: replacing a
    sub-tree by its children, in place, leaves the text unchanged. *)
Theorem flatten_tokens_only_splice (d d' : string) (l1 l2 l3 : list Node) :
  _flatten_tokens_only (Tree d (l1 ++ Tree d' l2 :: l3))
  = _flatten_tokens_only (Tree d (l1 ++ l2 ++ l3)).
Proof.
  cbn [_flatten_tokens_only scan_values].
  by rewrite !flat_map_app.
Qed.

(** ** The call scan and the renderer *)

Lemma contract_attr_entry_rendered (sol_symbols : SymbolTable) (ca : Node) (d : CallDescriptor) :
  contract_attr_entry ca = Some d ->
  rendered d = _flatten_expr_with_symbols sol_symbols ca
  /\ d_name d = "contract" /\ d_args d = [] /\ d_attr d <> None.
Proof.
  unfold contract_attr_entry.
  destruct (is_tree_named "contract_attribute_call" ca) eqn:Hca; [|discriminate].
  destruct (is_tree_named_inv _ _ Hca) as [children ->].
  cbn [negb tree_children]. intros [= <-]. cbn [rendered d_name d_args d_attr].
  split; [|done].
  cbn [_flatten_expr_with_symbols String.eqb Ascii.eqb Bool.eqb].
  by destruct (find (is_tree_named "contract_attribute") children).
Qed.

Lemma function_call_entry_named (sol_symbols : SymbolTable) (fc : Node) :
  if named_call fc
  then exists d, function_call_entry sol_symbols fc = Some d
                 /\ rendered d = _flatten_expr_with_symbols sol_symbols fc
  else function_call_entry sol_symbols fc = None.
Proof.
  unfold named_call, function_call_entry, _get_function_call_info. cbn [fst].
  destruct (is_tree_named "function_call" fc) eqn:Hfc; [|reflexivity].
  destruct (is_tree_named_inv _ _ Hfc) as [children ->]. cbn [andb negb tree_children].
  destruct (func_name_of children) as [fname|] eqn:Hname; [|reflexivity].
  destruct (PyStr.truthy fname); [|reflexivity]. cbn [negb].
  eexists. split; [reflexivity|]. cbn [rendered].
  by rewrite flatten_function_call, Hname.
Qed.

Lemma omap_cons_eq {A B : Type} (f : A -> option B) (x : A) (l : list A) :
  omap f (x :: l) = match f x with Some y => y :: omap f l | None => omap f l end.
Proof. reflexivity. Qed.

Lemma call_entries_rendered (sol_symbols : SymbolTable) (l : list Node) :
  map rendered (omap (function_call_entry sol_symbols) l)
  = map (_flatten_expr_with_symbols sol_symbols) (List.filter named_call l).
Proof.
  induction l as [|fc l IH]; [reflexivity|].
  rewrite omap_cons_eq. cbn [List.filter].
  pose proof (function_call_entry_named sol_symbols fc) as H.
  destruct (named_call fc).
  - destruct H as (d & Hentry & Hd). rewrite Hentry. cbn [map]. by rewrite Hd, IH.
  - by rewrite H.
Qed.

Lemma contract_entries_rendered (sol_symbols : SymbolTable) (l : list Node) :
  map rendered (omap contract_attr_entry l)
  = map (_flatten_expr_with_symbols sol_symbols)
        (List.filter (is_tree_named "contract_attribute_call") l).
Proof.
  induction l as [|ca l IH]; [reflexivity|].
  rewrite omap_cons_eq. cbn [List.filter].
  destruct (contract_attr_entry ca) as [d|] eqn:Hd.
  - rewrite (contract_attr_entry_label _ _ Hd). cbn [map]. rewrite IH.
    by rewrite (proj1 (contract_attr_entry_rendered sol_symbols _ _ Hd)).
  - unfold contract_attr_entry in Hd.
    destruct (is_tree_named "contract_attribute_call" ca); [discriminate|exact IH].
Qed.

(** X6: the scan's result is three blocks, of function-call kinds, of
    [state_var_attr] and of [contract_attr] descriptors; the [rendered]
    fields of the first block are, one for one and in order, the texts the
    symbol-aware renderer gives for the [function_call] sub-trees that have
    a callee name, taken top-down, and those of the last block are the
    texts it gives for the [contract_attribute_call] sub-trees: each
    descriptor carries the rendering of the very sub-tree it was made
    for. *)
Theorem collect_rendered_is_flatten (expr : Node) (sol_symbols : SymbolTable) :
  exists calls sums contracts,
    _collect_call_like_from_expr (Some expr) sol_symbols = calls ++ sums ++ contracts
    /\ Forall (fun d => function_call_kind (decl_kind d) = true) calls
    /\ map rendered calls
       = map (_flatten_expr_with_symbols sol_symbols)
             (List.filter named_call (iter_subtrees_topdown expr))
    /\ Forall (fun d => decl_kind d = state_var_attr) sums
    /\ Forall (fun d => decl_kind d = contract_attr) contracts
    /\ map rendered contracts
       = map (_flatten_expr_with_symbols sol_symbols)
             (List.filter (is_tree_named "contract_attribute_call")
                (iter_subtrees_topdown expr)).
Proof.
  eexists _, _, _. split; [reflexivity|]. split_and!.
  - apply Forall_forall. intros d (fc & _ & Hd)%list_elem_of_omap.
    apply function_call_entry_inv in Hd as (_ & _ & _ & _ & Hkind & _).
    rewrite Hkind. unfold classify. by repeat case_bool_decide.
  - apply call_entries_rendered.
  - apply Forall_forall. intros d (sv & _ & Hd)%list_elem_of_omap.
    by eapply special_var_entry_kind.
  - apply Forall_forall. intros d (ca & _ & Hd)%list_elem_of_omap.
    by eapply contract_attr_entry_kind.
  - apply contract_entries_rendered.
Qed.

Example collect_rendered_example :
  map rendered (_collect_call_like_from_expr (Some ScanExample.expr) ScanExample.sym)
  = ["balances[addr]"; "foo(x)"; "owner[i]"]
  /\ map (_flatten_expr_with_symbols ScanExample.sym)
         (List.filter named_call (iter_subtrees_topdown ScanExample.expr))
     = ["balances[addr]"; "foo(x)"; "owner[i]"].
Proof. split; vm_compute; reflexivity. Qed.

Lemma special_var_entry_shape (sv : Node) (d : CallDescriptor) :
  special_var_entry sv = Some d ->
  d_name d <> "" /\ d_args d = [] /\ d_attr d <> None.
Proof.
  unfold special_var_entry.
  repeat (case_match; try discriminate); intros [= <-]; cbn;
    split_and!; try done; intros ->; discriminate.
Qed.

(** X7: the scan lists the descriptors of function calls first, then those
    of aggregate attributes, then those of contract attributes; no
    descriptor has an empty name, those of function calls have no [attr]
    entry, and those of the two attribute kinds have an [attr] entry and no
    argument. *)
Theorem collect_layout (expr : Node) (sol_symbols : SymbolTable) :
  exists calls sums contracts,
    _collect_call_like_from_expr (Some expr) sol_symbols = calls ++ sums ++ contracts
    /\ Forall (fun d => function_call_kind (decl_kind d) = true
                        /\ d_name d <> "" /\ d_attr d = None) calls
    /\ Forall (fun d => decl_kind d = state_var_attr
                        /\ d_name d <> "" /\ d_args d = [] /\ d_attr d <> None) sums
    /\ Forall (fun d => decl_kind d = contract_attr
                        /\ d_name d = "contract" /\ d_args d = []
                        /\ d_attr d <> None) contracts.
Proof.
  eexists _, _, _. split; [reflexivity|].
  split_and!; apply Forall_forall; intros d (n & _ & Hd)%list_elem_of_omap.
  - pose proof (function_call_entry_inv _ _ _ Hd) as (_ & _ & Hne & _ & Hkind & _).
    split_and!; [rewrite Hkind; apply classify_kind | done |].
    revert Hd. unfold function_call_entry.
    repeat (case_match; try discriminate). by intros [= <-].
  - split; [by eapply special_var_entry_kind | by eapply special_var_entry_shape].
  - split; [by eapply contract_attr_entry_kind|].
    by apply (contract_attr_entry_rendered sol_symbols) in Hd as (_ & ? & ? & ?).
Qed.

(** ** Parameter types of a pattern *)

Lemma separators_no_subtree (sep : list Node) :
  forallb separator sep = true -> flat_map iter_subtrees_topdown sep = [].
Proof.
  induction sep as [|t sep IH]; [reflexivity|]. cbn [forallb flat_map].
  intros [[Ht _]%andb_true_iff Hsep]%andb_true_iff.
  rewrite IH by done. by destruct t.
Qed.

Lemma decl_children_types (p : ParamDecl) :
  flat_decl p = true ->
  List.filter (is_tree_named "cvl_type")
    (flat_map iter_subtrees_topdown (decl_children p))
  = [Tree "cvl_type" (decl_type p)].
Proof.
  unfold flat_decl, decl_children, cvl_free.
  intros [Hty Hloc]%andb_true_iff.
  cbn [flat_map iter_subtrees_topdown app].
  cbn [List.filter is_tree_named String.eqb Ascii.eqb Bool.eqb]. f_equal.
  rewrite List.filter_app, (filter_none _ _ Hty). cbn [app].
  destruct (decl_location p) as [loc|], (decl_name p);
    cbn [flat_map iter_subtrees_topdown app List.filter is_tree_named
         String.eqb Ascii.eqb Bool.eqb];
    rewrite ?app_nil_r, ?List.filter_app, ?(filter_none _ _ Hloc); reflexivity.
Qed.

Lemma params_node_types (sep : list Node) (first : ParamDecl) (rest : list ParamDecl) :
  forallb separator sep = true ->
  forallb flat_decl (first :: rest) = true ->
  List.filter (is_tree_named "cvl_type")
    (iter_subtrees_topdown (params_node sep first rest))
  = map (fun p => Tree "cvl_type" (decl_type p)) (first :: rest).
Proof.
  intros Hsep. cbn [forallb]. intros [Hfirst Hrest]%andb_true_iff.
  unfold params_node. cbn [iter_subtrees_topdown List.filter is_tree_named
                           String.eqb Ascii.eqb Bool.eqb].
  rewrite flat_map_app, List.filter_app, decl_children_types by done.
  cbn [map app]. f_equal.
  induction rest as [|p rest IH]; [reflexivity|].
  cbn [forallb] in Hrest. apply andb_true_iff in Hrest as [Hp Hrest].
  cbn [map flat_map]. rewrite List.filter_app, IH by done.
  unfold param_node at 1.
  cbn [iter_subtrees_topdown List.filter is_tree_named String.eqb Ascii.eqb Bool.eqb].
  rewrite flat_map_app, separators_no_subtree by done.
  cbn [app]. by rewrite decl_children_types.
Qed.

Lemma extract_rule_params_grammar (sep : list Node) (first : ParamDecl)
    (rest : list ParamDecl) :
  forallb separator sep = true ->
  forallb named (first :: rest) = true ->
  _extract_rule_params (Some (params_node sep first rest)) =
    map record_of (first :: rest).
Proof.
  intros Hsep Hnamed. cbn [forallb] in Hnamed.
  apply andb_true_iff in Hnamed as [Hfirst Hrest].
  unfold _extract_rule_params, params_node. cbn [tree_children]. cbv zeta.
  rewrite first_name_tok_decl.
  2:{ clear. induction rest; cbn [map]; constructor; done. }
  rewrite flat_map_app, flat_map_params by done.
  cbn [map]. change (find _ (decl_children first ++ _))
    with (Some (Tree "cvl_type" (decl_type first))).
  assert (Hskip : flat_map
            (fun ch =>
               if is_tree_named "param" ch then
                 _add_param (find (is_tree_named "cvl_type") (tree_children ch))
                            (find (is_token_typed "ID") (tree_children ch))
               else [])
            (decl_children first) = []).
  { unfold decl_children. by destruct (decl_location first), (decl_name first). }
  rewrite Hskip. cbn [app]. f_equal.
  unfold _add_param, record_of, named in *. f_equal.
  destruct (decl_name first) as [n|]; [|reflexivity].
  cbn [option_map]. unfold token_truthy. cbn [token_value]. by rewrite Hfirst.
Qed.

(** X8: for a pattern whose first [params] child is a parameter list of
    the grammar in which no type contains a further [cvl_type] node,
    [_extract_param_types_from_pattern] returns the flattened types of the
    declarations in order, which are the [type] fields of the records of
    [_extract_rule_params] on that same parameter list; without a [params]
    child it returns the empty list. *)
Theorem extract_param_types_match (d : string) (pre post sep : list Node)
    (first : ParamDecl) (rest : list ParamDecl) :
  forallb not_params pre = true ->
  forallb separator sep = true ->
  forallb flat_decl (first :: rest) = true ->
  _extract_param_types_from_pattern (Tree d (pre ++ params_node sep first rest :: post))
    = map (fun p => _flatten_tokens_only (Tree "cvl_type" (decl_type p))) (first :: rest)
  /\ (forallb named (first :: rest) = true ->
      _extract_param_types_from_pattern (Tree d (pre ++ params_node sep first rest :: post))
        = map p_type (_extract_rule_params (Some (params_node sep first rest))))
  /\ _extract_param_types_from_pattern (Tree d pre) = [].
Proof.
  intros Hpre Hsep Hflat.
  assert (Hfind : forall l,
             find (is_tree_named "params") (pre ++ l) = find (is_tree_named "params") l).
  { intros l. induction pre as [|c pre IH]; [reflexivity|].
    cbn [forallb] in Hpre. apply andb_true_iff in Hpre as [Hc Hpre].
    apply negb_true_iff in Hc. cbn [app find]. rewrite Hc. by apply IH. }
  assert (Htypes : _extract_param_types_from_pattern
                     (Tree d (pre ++ params_node sep first rest :: post))
                   = map (fun p => _flatten_tokens_only (Tree "cvl_type" (decl_type p)))
                         (first :: rest)).
  { unfold _extract_param_types_from_pattern. cbn [tree_children].
    rewrite Hfind. cbn [find]. change (is_tree_named "params" (params_node sep first rest))
      with true. cbv iota.
    by rewrite params_node_types, map_map. }
  split_and!.
  - exact Htypes.
  - intros Hnamed. rewrite Htypes, extract_rule_params_grammar by done.
    by rewrite map_map.
  - unfold _extract_param_types_from_pattern. cbn [tree_children].
    specialize (Hfind []). rewrite app_nil_r in Hfind. by rewrite Hfind.
Qed.

Lemma extract_param_types_match_witness :
  forallb not_params [Token "ID" "transfer"] = true
  /\ forallb separator [Token "COMMA" ","] = true
  /\ forallb flat_decl (ParamsExample.first :: ParamsExample.rest) = true
  /\ _extract_param_types_from_pattern
       (Tree "exact_pattern"
          ([Token "ID" "transfer"]
           ++ params_node [Token "COMMA" ","] ParamsExample.first ParamsExample.rest
           :: []))
     = map (fun p => _flatten_tokens_only (Tree "cvl_type" (decl_type p)))
           (ParamsExample.first :: ParamsExample.rest).
Proof.
  refine (conj eq_refl (conj eq_refl (conj eq_refl _))).
  exact (proj1 (extract_param_types_match "exact_pattern" [Token "ID" "transfer"] []
                  [Token "COMMA" ","] ParamsExample.first ParamsExample.rest
                  eq_refl eq_refl eq_refl)).
Defined.

Example extract_param_types_nested :
  _extract_param_types_from_pattern
    (Tree "exact_pattern"
       [Tree "params"
          [Tree "cvl_type"
             [Token "T" "mapping"; Token "LPAR" "(";
              Tree "cvl_type" [Token "T" "address"]; Token "ARROW" "=>";
              Tree "cvl_type" [Token "T" "uint"]; Token "RPAR" ")"]]])
  = ["mapping (address => uint)"; "address"; "uint"].
Proof. reflexivity. Qed.

(** ** The formatter: operands that need no parentheses *)

(** X9: every level of the table, and the default 1, lies between 1 and
    8; a binary node decides on each operand by itself: an operand whose own
    precedence is above 8 (a token, a call, a parenthesised group, an
    indexed name: levels 10 and 100) is rendered as it is, whatever the
    other operand, and an operand whose precedence is below the node's is
    put between ["("] and [")"]. *)
Theorem fmt_binary_tight_operands (n left right : Node) (op : string) (P : Z)
    (ltxt rtxt : string) (lp rp : Z) :
  binary_node n left op right P ->
  fmt left = Ok (ltxt, lp) ->
  fmt right = Ok (rtxt, rp) ->
  1 <= P <= 8
  /\ exists lout rout,
       fmt n = Ok (lout +:+ " " +:+ op +:+ " " +:+ rout, P)
       /\ (8 < lp -> lout = ltxt)
       /\ (8 < rp -> rout = rtxt)
       /\ (lp < P -> lout = "(" +:+ ltxt +:+ ")")
       /\ (rp < P -> rout = "(" +:+ rtxt +:+ ")")
       /\ (lout = ltxt \/ lout = "(" +:+ ltxt +:+ ")")
       /\ (rout = rtxt \/ rout = "(" +:+ rtxt +:+ ")").
Proof.
  intros Hn Hl Hr.
  pose proof (binary_node_range _ _ _ _ _ Hn) as HP. split; [exact HP|].
  exists (if lp <? P then "(" +:+ ltxt +:+ ")" else ltxt),
         (if right_parenthesized n op rp P then "(" +:+ rtxt +:+ ")" else rtxt).
  split; [exact (fmt_binary_node _ _ _ _ _ _ _ _ _ Hn Hl Hr)|].
  unfold right_parenthesized. split_and!.
  - intros Hlp. destruct (Z.ltb_spec lp P); [lia|reflexivity].
  - intros Hrp. destruct (implication_node n op);
      [destruct (Z.leb_spec rp P) | destruct (Z.ltb_spec rp P)]; (lia || reflexivity).
  - intros Hlp. destruct (Z.ltb_spec lp P); [reflexivity|lia].
  - intros Hrp. destruct (implication_node n op);
      [destruct (Z.leb_spec rp P) | destruct (Z.ltb_spec rp P)]; (lia || reflexivity).
  - destruct (lp <? P); auto.
  - destruct (if implication_node n op then rp <=? P else rp <? P); auto.
Qed.

Lemma fmt_binary_tight_operands_witness :
  binary_node
    (FmtExample.bin (FmtExample.bin (FmtExample.ID "a") "+" (FmtExample.ID "b")) "*"
       (Tree "function_call" [FmtExample.ID "f"; Tree "exprs" []]))
    (FmtExample.bin (FmtExample.ID "a") "+" (FmtExample.ID "b")) "*"
    (Tree "function_call" [FmtExample.ID "f"; Tree "exprs" []]) 8
  /\ fmt (FmtExample.bin (FmtExample.ID "a") "+" (FmtExample.ID "b")) = Ok ("a + b", 7)
  /\ fmt (Tree "function_call" [FmtExample.ID "f"; Tree "exprs" []]) = Ok ("f()", 10)
  /\ exists lout rout,
       fmt (FmtExample.bin (FmtExample.bin (FmtExample.ID "a") "+" (FmtExample.ID "b")) "*"
              (Tree "function_call" [FmtExample.ID "f"; Tree "exprs" []]))
       = Ok (lout +:+ " " +:+ "*" +:+ " " +:+ rout, 8)
       /\ lout = "(" +:+ "a + b" +:+ ")"
       /\ rout = "f()".
Proof.
  assert (Hn : binary_node
                 (FmtExample.bin (FmtExample.bin (FmtExample.ID "a") "+" (FmtExample.ID "b"))
                    "*" (Tree "function_call" [FmtExample.ID "f"; Tree "exprs" []]))
                 (FmtExample.bin (FmtExample.ID "a") "+" (FmtExample.ID "b")) "*"
                 (Tree "function_call" [FmtExample.ID "f"; Tree "exprs" []]) 8).
  { change 8 with (default 1 (BIN_PRECEDENCE !! "*")). apply binary_arith; by left. }
  refine (conj Hn (conj eq_refl (conj eq_refl _))).
  destruct (fmt_binary_tight_operands _ _ _ _ _ "a + b" "f()" 7 10 Hn eq_refl eq_refl)
    as (_ & lout & rout & Hfmt & _ & Hrout & Hlout & _).
  exists lout, rout. split; [exact Hfmt|]. split.
  - apply Hlout. lia.
  - apply Hrout. lia.
Defined.

Example fmt_binary_tight_text :
  fmt (FmtExample.bin (FmtExample.bin (FmtExample.ID "a") "+" (FmtExample.ID "b")) "*"
         (Tree "function_call" [FmtExample.ID "f"; Tree "exprs" []]))
  = Ok ("(a + b) * f()", 8).
Proof. reflexivity. Qed.

(** X10: a parenthesised group of the source, an [exprs] node with one
    child, is rendered ["("], the text of the child, [")"], and keeps
    exactly that one pair as the right operand of a binary node, as its
    left operand and as the operand of a unary operator, whatever the
    precedence of the expression inside. *)
Theorem fmt_group_kept (c : Node) (ctxt : string) (cp : Z) :
  fmt c = Ok (ctxt, cp) ->
  fmt (Tree "exprs" [c]) = Ok ("(" +:+ ctxt +:+ ")", 100)
  /\ (forall n left op P ltxt lp,
         binary_node n left op (Tree "exprs" [c]) P ->
         fmt left = Ok (ltxt, lp) ->
         fmt n = Ok ((if lp <? P then "(" +:+ ltxt +:+ ")" else ltxt)
                       +:+ " " +:+ op +:+ " " +:+ "(" +:+ ctxt +:+ ")", P))
  /\ (forall n right op P rtxt rp,
         binary_node n (Tree "exprs" [c]) op right P ->
         fmt right = Ok (rtxt, rp) ->
         fmt n = Ok (("(" +:+ ctxt +:+ ")") +:+ " " +:+ op +:+ " "
                       +:+ (if right_parenthesized n op rp P
                            then "(" +:+ rtxt +:+ ")" else rtxt), P))
  /\ (forall ol ty op ops rest,
         fmt (Tree "unary_expr"
                (Tree ol (Token ty op :: ops) :: Tree "exprs" [c] :: rest))
         = Ok (op +:+ "(" +:+ ctxt +:+ ")", UNARY_PRECEDENCE)).
Proof.
  intros Hc. pose proof (fmt_exprs_group _ _ _ Hc) as Hg. split_and!.
  - exact Hg.
  - intros n left op P ltxt lp Hn Hl.
    pose proof (binary_node_range _ _ _ _ _ Hn) as HP.
    rewrite (fmt_binary_node _ _ _ _ _ _ _ _ _ Hn Hl Hg).
    unfold right_parenthesized.
    destruct (implication_node n op);
      [destruct (Z.leb_spec 100 P) | destruct (Z.ltb_spec 100 P)]; (lia || reflexivity).
  - intros n right op P rtxt rp Hn Hr.
    pose proof (binary_node_range _ _ _ _ _ Hn) as HP.
    rewrite (fmt_binary_node _ _ _ _ _ _ _ _ _ Hn Hg Hr).
    destruct (Z.ltb_spec 100 P); [lia|reflexivity].
  - intros ol ty op ops rest.
    cbn [fmt String.eqb Ascii.eqb Bool.eqb andb orb map nth_error item
         get_children get_value mbind Res_bind length Nat.leb].
    rewrite Hc. reflexivity.
Qed.

Lemma fmt_group_kept_witness :
  fmt (FmtExample.bin (FmtExample.ID "b") "-" (FmtExample.ID "c")) = Ok ("b - c", 7)
  /\ fmt (FmtExample.bin (FmtExample.ID "a") "-"
            (Tree "exprs" [FmtExample.bin (FmtExample.ID "b") "-" (FmtExample.ID "c")]))
     = Ok ((if 100 <? 7 then "(" +:+ "a" +:+ ")" else "a") +:+ " " +:+ "-" +:+ " "
             +:+ "(" +:+ "b - c" +:+ ")", 7).
Proof.
  assert (Hc : fmt (FmtExample.bin (FmtExample.ID "b") "-" (FmtExample.ID "c"))
               = Ok ("b - c", 7)) by reflexivity.
  refine (conj Hc _).
  refine (proj1 (proj2 (fmt_group_kept _ _ _ Hc)) _ (FmtExample.ID "a") "-" 7 "a" 100 _
            eq_refl).
  change 7 with (default 1 (BIN_PRECEDENCE !! "-")). apply binary_arith; by left.
Defined.

Example group_kept_text :
  fmt (FmtExample.bin (FmtExample.ID "a") "-"
         (Tree "exprs" [FmtExample.bin (FmtExample.ID "b") "-" (FmtExample.ID "c")]))
  = Ok ("a - (b - c)", 7).
Proof. reflexivity. Qed.

(** ** The formatter: failures *)

(** X11: an operator that is not in the precedence table makes a
    [logic_bi_expr] fail with [KeyError], before its operands are looked
    at, whereas a [bi_expr] or [compare_bi_expr] formats it at level 1. *)
Theorem fmt_unknown_operator (op : string) :
  BIN_PRECEDENCE !! op = None ->
  (forall left right ol ty ops rest,
      fmt (Tree "logic_bi_expr" (left :: Tree ol (Token ty op :: ops) :: right :: rest))
      = Raise KeyError)
  /\ (forall d left right ol ty ops ltxt rtxt lp rp,
         d = "bi_expr" \/ d = "compare_bi_expr" ->
         ol = "binop" \/ ol = "compare_binop" ->
         fmt left = Ok (ltxt, lp) ->
         fmt right = Ok (rtxt, rp) ->
         fmt (Tree d [left; Tree ol (Token ty op :: ops); right])
         = Ok ((if lp <? 1 then paren ltxt else ltxt) +:+ " " +:+ op +:+ " "
                 +:+ (if rp <? 1 then paren rtxt else rtxt), 1)).
Proof.
  intros Hop. split.
  - intros left right ol ty ops rest. fmt_step. by rewrite Hop.
  - intros d left right ol ty ops ltxt rtxt lp rp Hd Hol Hl Hr.
    pose proof (fmt_binary_node _ _ _ _ _ _ _ _ _
                  (binary_arith d left right ol ty op ops Hd Hol) Hl Hr) as H.
    rewrite Hop in H. cbn [default from_option id] in H. rewrite H.
    unfold right_parenthesized, implication_node.
    by destruct Hd as [-> | ->].
Qed.

Lemma fmt_unknown_operator_witness :
  BIN_PRECEDENCE !! "**" = None
  /\ fmt (FmtExample.lbin (FmtExample.ID "a") "**" (FmtExample.ID "b")) = Raise KeyError.
Proof.
  refine (conj eq_refl _).
  exact (proj1 (fmt_unknown_operator "**" eq_refl)
           (FmtExample.ID "a") (FmtExample.ID "b") "logic_binop" "OP" [] []).
Defined.

(** X12: a binary node fails with the error of its left operand when that
    one fails, and with the error of its right operand when only that one
    fails. *)
Theorem fmt_binary_errors (n left right : Node) (op : string) (P : Z) (e : PyError) :
  binary_node n left op right P ->
  (fmt left = Raise e -> fmt n = Raise e)
  /\ (forall ltxt lp, fmt left = Ok (ltxt, lp) -> fmt right = Raise e -> fmt n = Raise e).
Proof.
  intros [left' right' ol ty op' ops rest P' HP | d left' right' ol ty op' ops Hd Hol].
  - split.
    + intros Hl. fmt_step. rewrite HP, Hl. by destruct (String.eqb op' "=>").
    + intros ltxt lp Hl Hr. fmt_step. rewrite HP, Hl, Hr.
      by destruct (String.eqb op' "=>").
  - split.
    + intros Hl. destruct Hd as [-> | ->], Hol as [-> | ->]; fmt_step; by rewrite Hl.
    + intros ltxt lp Hl Hr.
      destruct Hd as [-> | ->], Hol as [-> | ->]; fmt_step; by rewrite Hl, Hr.
Qed.

Lemma fmt_binary_errors_witness :
  binary_node
    (FmtExample.bin (Tree "unary_expr" []) "+" (FmtExample.ID "b"))
    (Tree "unary_expr" []) "+" (FmtExample.ID "b") 7
  /\ fmt (Tree "unary_expr" []) = Raise IndexError
  /\ fmt (FmtExample.bin (Tree "unary_expr" []) "+" (FmtExample.ID "b")) = Raise IndexError.
Proof.
  assert (Hn : binary_node
                 (FmtExample.bin (Tree "unary_expr" []) "+" (FmtExample.ID "b"))
                 (Tree "unary_expr" []) "+" (FmtExample.ID "b") 7).
  { change 7 with (default 1 (BIN_PRECEDENCE !! "+")). apply binary_arith; by left. }
  refine (conj Hn (conj eq_refl _)).
  exact (proj1 (fmt_binary_errors _ _ _ _ _ IndexError Hn) eq_refl).
Defined.

(** ** The formatter: calls *)

Lemma tree_texts_spec (l : list Node) :
  tree_texts (map (fun c => (c, fmt c)) l) =
    (all ← sequence (map fmt (List.filter is_Tree l)); Ok (map fst all)).
Proof.
  induction l as [|c l IH]; [reflexivity|].
  cbn [map tree_texts List.filter]. destruct (is_Tree c); [|exact IH].
  cbn [map sequence mbind Res_bind]. rewrite IH.
  destruct (fmt c) as [[t p]|e]; [|reflexivity].
  cbn [mbind Res_bind]. by destruct (sequence (map fmt (List.filter is_Tree l))).
Qed.

Lemma next_exprs_texts (children : list Node) :
  default (Ok [])
    (next_map
       (fun ch =>
          match ch with
          | Tree d exprs_children =>
              if String.eqb d "exprs"
              then Some (tree_texts (map (fun c => (c, fmt c)) exprs_children))
              else None
          | Token _ _ => None
          end) children)
  = match exprs_node_of children with
    | Some e => tree_texts (map (fun c => (c, fmt c)) (tree_children e))
    | None => Ok []
    end.
Proof.
  unfold exprs_node_of.
  induction children as [|ch children IH]; [reflexivity|].
  cbn [next_map find]. destruct ch as [ty v | d ech]; cbn [is_tree_named]; [exact IH|].
  destruct (String.eqb d "exprs"); [reflexivity|exact IH].
Qed.

Lemma fmt_function_call (children : list Node) :
  fmt (Tree "function_call" children) =
    (args ← match exprs_node_of children with
            | Some e =>
                all ← sequence (map fmt (List.filter is_Tree (tree_children e)));
                Ok (map fst all)
            | None => Ok []
            end;
     Ok ((dotted_name children +:+ "(") +:+ PyStr.join ", " args +:+ ")", 10)).
Proof.
  cbn [fmt String.eqb Ascii.eqb Bool.eqb andb orb].
  rewrite next_exprs_texts. unfold dotted_name.
  destruct (exprs_node_of children) as [e|]; [|reflexivity].
  by rewrite tree_texts_spec.
Qed.

(** X13: [fmt] names a call by all its identifier children joined by dots
    and takes as arguments only the [Tree] children of [exprs]: token
    children, identifiers and literals as much as commas, are left out, so
    a call whose arguments are all tokens is formatted [name()]; the result
    is at level 10, and [fmt] fails on a call only when one of these [Tree]
    arguments fails. *)
Theorem fmt_call_arguments (children : list Node) :
  (exprs_node_of children = None ->
   fmt (Tree "function_call" children) = Ok (dotted_name children +:+ "()", 10))
  /\ (forall e,
         exprs_node_of children = Some e ->
         existsb is_Tree (tree_children e) = false ->
         fmt (Tree "function_call" children) = Ok (dotted_name children +:+ "()", 10))
  /\ (forall e all,
         exprs_node_of children = Some e ->
         sequence (map fmt (List.filter is_Tree (tree_children e))) = Ok all ->
         fmt (Tree "function_call" children) =
           Ok (dotted_name children +:+ "(" +:+ PyStr.join ", " (map fst all) +:+ ")", 10)).
Proof.
  split_and!.
  - intros He. rewrite fmt_function_call, He. cbn [mbind Res_bind].
    by rewrite PyStrFacts.app_assoc.
  - intros e He Hno. rewrite fmt_function_call, He.
    rewrite filter_none.
    2:{ revert Hno. generalize (tree_children e). intros l.
        induction l as [|x l IH]; [reflexivity|]. cbn [existsb forallb].
        intros [Hx Hl]%orb_false_iff. by rewrite Hx, IH. }
    cbn [map sequence mbind Res_bind]. by rewrite PyStrFacts.app_assoc.
  - intros e all He Hall. rewrite fmt_function_call, He, Hall.
    cbn [mbind Res_bind]. by rewrite PyStrFacts.app_assoc.
Qed.

Lemma fmt_call_arguments_witness :
  exprs_node_of CallExample.transfer_call
    = Some (Tree "exprs" [Token "ID" "addr"; Token "COMMA" ",";
                          Token "INTEGER_LITERAL" "100"])
  /\ existsb is_Tree [Token "ID" "addr"; Token "COMMA" ",";
                      Token "INTEGER_LITERAL" "100"] = false
  /\ fmt (Tree "function_call" CallExample.transfer_call)
     = Ok (dotted_name CallExample.transfer_call +:+ "()", 10).
Proof.
  refine (conj eq_refl (conj eq_refl _)).
  exact (proj1 (proj2 (fmt_call_arguments CallExample.transfer_call)) _ eq_refl eq_refl).
Defined.

(** ** The formatter: wrappers, attributes and indexed names *)

Lemma plain_label_inv (d : string) :
  plain_label d = true -> Forall (fun l => String.eqb d l = false) fmt_labels.
Proof.
  unfold plain_label. intros H%negb_true_iff.
  induction fmt_labels as [|l ls IH]; [constructor|].
  cbn [existsb] in H. apply orb_false_iff in H as [Hl Hls]. constructor; auto.
Qed.

(** X14: a node with a single child and a label without a rule of its own,
    or labelled [expr] or [modify_var], is formatted exactly as its child:
    same text, same precedence, same failure. *)
Theorem fmt_wrapper_transparent (d : string) (c : Node) :
  plain_label d = true \/ d = "expr" \/ d = "modify_var" ->
  fmt (Tree d [c]) = fmt c.
Proof.
  intros [Hplain | [-> | ->]]; [|reflexivity..].
  apply plain_label_inv in Hplain. unfold fmt_labels in Hplain.
  repeat match goal with
         | H : Forall _ (_ :: _) |- _ =>
             apply Forall_cons_1 in H as [? H]
         end.
  cbn [fmt].
  repeat match goal with
         | H : String.eqb d _ = false |- _ => rewrite H; clear H
         end.
  reflexivity.
Qed.

Lemma fmt_wrapper_transparent_witness :
  (plain_label "paren_free" = true \/ "paren_free" = "expr" \/ "paren_free" = "modify_var")
  /\ fmt (Tree "paren_free" [FmtExample.bin (FmtExample.ID "a") "+" (FmtExample.ID "b")])
     = fmt (FmtExample.bin (FmtExample.ID "a") "+" (FmtExample.ID "b")).
Proof.
  assert (H : plain_label "paren_free" = true \/ "paren_free" = "expr"
              \/ "paren_free" = "modify_var") by (left; reflexivity).
  refine (conj H _).
  exact (fmt_wrapper_transparent "paren_free" _ H).
Defined.

(** X15: a [contract_attribute_call] whose attribute is [address] or
    [balance] is formatted [address(this)] or [address(this).balance]
    whatever its receiver; any other attribute is appended to the value of
    the receiver, which must then be a token ([AttributeError] otherwise);
    an attribute node with no text fails with [AttributeError]. *)
Theorem fmt_contract_attribute (c a : Node) (rest : list Node) :
  (forall v,
      attribute_text a = Some v ->
      fmt (Tree "contract_attribute_call" (c :: a :: rest)) =
        if String.eqb v "address" then Ok ("address(this)", 100)
        else if String.eqb v "balance" then Ok ("address(this).balance", 100)
        else match c with
             | Token _ cv => Ok (cv +:+ "." +:+ v, 100)
             | Tree _ _ => Raise AttributeError
             end)
  /\ (attribute_text a = None ->
      fmt (Tree "contract_attribute_call" (c :: a :: rest)) = Raise AttributeError).
Proof.
  split.
  - intros v Ha.
    cbn [fmt String.eqb Ascii.eqb Bool.eqb andb orb item nth_error mbind Res_bind].
    destruct a as [ty av | al [|[ty av | d' ch'] more]]; cbn in Ha; try discriminate;
      injection Ha as ->; cbn [get_value mbind Res_bind];
      destruct (String.eqb v "address"); try reflexivity;
      destruct (String.eqb v "balance"); try reflexivity;
      by destruct c.
  - intros Ha.
    cbn [fmt String.eqb Ascii.eqb Bool.eqb andb orb item nth_error mbind Res_bind].
    by destruct a as [ty av | al [|[ty av | d' ch'] more]].
Qed.

Lemma fmt_contract_attribute_witness :
  attribute_text (Tree "contract_attribute" [Token "BALANCE" "balance"]) = Some "balance"
  /\ fmt (Tree "contract_attribute_call"
            [Tree "anything" []; Tree "contract_attribute" [Token "BALANCE" "balance"]])
     = Ok ("address(this).balance", 100).
Proof.
  refine (conj eq_refl _).
  exact (proj1 (fmt_contract_attribute (Tree "anything" [])
                  (Tree "contract_attribute" [Token "BALANCE" "balance"]) [])
           "balance" eq_refl).
Defined.

(** X16: a [special_var_attribute_call] is formatted from the text of its
    base: [__verifier_sum_uint(base)] for the attribute [sum],
    [__verifier_sum_int(base)] for [isum], [base.attr] for any other, always
    at level 100; it fails as its base fails, and with [AttributeError] when
    the attribute node is a token. *)
Theorem fmt_special_var_attribute (base : Node) (rest : list Node) :
  (forall al ty v more btxt bp,
      fmt base = Ok (btxt, bp) ->
      fmt (Tree "special_var_attribute_call"
             (base :: Tree al (Token ty v :: more) :: rest)) =
        if String.eqb v "sum" then Ok ("__verifier_sum_uint(" +:+ btxt +:+ ")", 100)
        else if String.eqb v "isum" then Ok ("__verifier_sum_int(" +:+ btxt +:+ ")", 100)
        else Ok (btxt +:+ "." +:+ v, 100))
  /\ (forall a e,
         fmt base = Raise e ->
         fmt (Tree "special_var_attribute_call" (base :: a :: rest)) = Raise e)
  /\ (forall ty v btxt bp,
         fmt base = Ok (btxt, bp) ->
         fmt (Tree "special_var_attribute_call" (base :: Token ty v :: rest))
         = Raise AttributeError).
Proof.
  split_and!.
  - intros al ty v more btxt bp Hb. fmt_step. rewrite Hb. cbn [mbind Res_bind].
    by repeat case_match.
  - intros a e Hb. fmt_step. by rewrite Hb.
  - intros ty v btxt bp Hb. fmt_step. by rewrite Hb.
Qed.

Lemma fmt_special_var_attribute_witness :
  fmt (Token "ID" "balances") = Ok ("balances", 100)
  /\ fmt (Tree "special_var_attribute_call"
            [Token "ID" "balances"; Tree "special_var_attribute" [Token "SUM" "sum"]])
     = (if String.eqb "sum" "sum" then Ok ("__verifier_sum_uint(" +:+ "balances" +:+ ")", 100)
        else if String.eqb "sum" "isum"
             then Ok ("__verifier_sum_int(" +:+ "balances" +:+ ")", 100)
             else Ok ("balances" +:+ "." +:+ "sum", 100)).
Proof.
  refine (conj eq_refl _).
  exact (proj1 (fmt_special_var_attribute (Token "ID" "balances") [])
           "special_var_attribute" "SUM" "sum" [] "balances" 100 eq_refl).
Defined.

(** X17: the failures of a unary expression: no child or no operand is an
    [IndexError], an operator node that is a token or whose first child is
    a tree is an [AttributeError], an operator node without child is an
    [IndexError]; otherwise it fails exactly as its operand fails. *)
Theorem fmt_unary_failures (rest : list Node) :
  fmt (Tree "unary_expr" []) = Raise IndexError
  /\ (forall ty v, fmt (Tree "unary_expr" (Token ty v :: rest)) = Raise AttributeError)
  /\ (forall ol, fmt (Tree "unary_expr" (Tree ol [] :: rest)) = Raise IndexError)
  /\ (forall ol d ch more,
         fmt (Tree "unary_expr" (Tree ol (Tree d ch :: more) :: rest))
         = Raise AttributeError)
  /\ (forall ol ty op more,
         fmt (Tree "unary_expr" [Tree ol (Token ty op :: more)]) = Raise IndexError)
  /\ (forall ol ty op more operand e,
         fmt operand = Raise e ->
         fmt (Tree "unary_expr" (Tree ol (Token ty op :: more) :: operand :: rest))
         = Raise e).
Proof.
  split_and!; try reflexivity.
  intros ol ty op more operand e Hop. fmt_step. by rewrite Hop.
Qed.

Lemma fmt_unary_failures_witness :
  fmt (Tree "logic_bi_expr" []) = Raise IndexError
  /\ fmt (Tree "unary_expr"
            [Tree "unop" [Token "NOT" "!"]; Tree "logic_bi_expr" []]) = Raise IndexError.
Proof.
  refine (conj eq_refl _).
  exact (proj2 (proj2 (proj2 (proj2 (proj2 (fmt_unary_failures [])))))
           "unop" "NOT" "!" [] (Tree "logic_bi_expr" []) IndexError eq_refl).
Defined.

(** X18: an identifier followed by an [index] node, under [expr] or
    [modify_var], is formatted as the name followed by one bracketed segment
    per index expression, and with an [attribute] node as third child also
    by one dotted segment per attribute, without any space and at level
    100. *)
Theorem fmt_indexed_name (d x : string) (idx attrs : list Node)
    (its ats : list (string * Z)) :
  d = "expr" \/ d = "modify_var" ->
  sequence (map fmt idx) = Ok its ->
  sequence (map fmt attrs) = Ok ats ->
  fmt (Tree d [Token "ID" x; Tree "index" idx])
    = Ok (x +:+ PyStr.join "" (map (fun tp => "[" +:+ tp.1 +:+ "]") its), 100)
  /\ fmt (Tree d [Token "ID" x; Tree "attribute" attrs])
     = Ok (x +:+ PyStr.join "" (map (fun tp => "." +:+ tp.1) ats), 100)
  /\ fmt (Tree d [Token "ID" x; Tree "index" idx; Tree "attribute" attrs])
     = Ok (x +:+ PyStr.join "" (map (fun tp => "[" +:+ tp.1 +:+ "]") its)
             +:+ PyStr.join "" (map (fun tp => "." +:+ tp.1) ats), 100).
Proof.
  intros Hd Hidx Hattrs.
  destruct Hd as [-> | ->]; split_and!; fmt_step; by rewrite ?Hidx, ?Hattrs.
Qed.

Lemma fmt_indexed_name_witness :
  ("expr" = "expr" \/ "expr" = "modify_var")
  /\ sequence (map fmt [Token "ID" "a"; Token "ID" "b"]) = Ok [("a", 100); ("b", 100)]
  /\ sequence (map fmt [Token "ID" "f"]) = Ok [("f", 100)]
  /\ fmt (Tree "expr" [Token "ID" "m"; Tree "index" [Token "ID" "a"; Token "ID" "b"];
                       Tree "attribute" [Token "ID" "f"]])
     = Ok ("m" +:+ PyStr.join "" (map (fun tp => "[" +:+ tp.1 +:+ "]")
                                      [("a", 100); ("b", 100)])
             +:+ PyStr.join "" (map (fun tp => "." +:+ tp.1) [("f", 100)]), 100).
Proof.
  assert (H : "expr" = "expr" \/ "expr" = "modify_var") by (by left).
  refine (conj H (conj eq_refl (conj eq_refl _))).
  exact (proj2 (proj2 (fmt_indexed_name "expr" "m" [Token "ID" "a"; Token "ID" "b"]
                         [Token "ID" "f"] _ _ H eq_refl eq_refl))).
Defined.

(** ** The formatter: range of the precedences *)

Lemma child_prec_ok (ch : list Node) (i : nat) (r : Res (string * Z)) :
  Forall (fun c => prec_ok (fmt c)) ch ->
  nth_error (map fmt ch) i = Some r -> prec_ok r.
Proof.
  intros Hch Hi. apply nth_error_In in Hi. apply in_map_iff in Hi as (c & <- & Hc).
  rewrite List.Forall_forall in Hch. by apply Hch.
Qed.

Lemma sequence_prec_ok (rs : list (Res (string * Z))) (all : list (string * Z)) :
  Forall prec_ok rs -> sequence rs = Ok all -> Forall (fun tp => 0 <= tp.2 <= 100) all.
Proof.
  intros Hrs. revert all. induction Hrs as [|r rs Hr _ IH]; intros all; cbn [sequence].
  - intros [= <-]. constructor.
  - destruct r as [[t p]|e]; [|discriminate]. cbn [mbind Res_bind].
    destruct (sequence rs) as [xs|e]; [|discriminate]. intros [= <-].
    constructor; [by apply (Hr t p)|by apply IH].
Qed.

Lemma fold_max_ok (all : list (string * Z)) (acc : Z) :
  0 <= acc <= 100 ->
  Forall (fun tp => 0 <= tp.2 <= 100) all ->
  0 <= fold_left (fun mp tp => Z.max mp tp.2) all acc <= 100.
Proof.
  intros Hacc Hall. revert acc Hacc.
  induction Hall as [|tp all Htp _ IH]; intros acc Hacc; cbn [fold_left]; [done|].
  apply IH. lia.
Qed.

Lemma max_prec_ok (all : list (string * Z)) :
  Forall (fun tp => 0 <= tp.2 <= 100) all -> 0 <= max_prec all <= 100.
Proof. apply fold_max_ok. lia. Qed.

(** X19: whenever [fmt] returns, the precedence it reports lies between 0
    and 100: no node is ever reported above the level of a token. *)
Theorem fmt_precedence_range (n : Node) (t : string) (p : Z) :
  fmt n = Ok (t, p) -> 0 <= p <= 100.
Proof.
  revert t p. change (prec_ok (fmt n)).
  induction n as [ty v | d ch IH] using Node_ind'.
  - intros t p [= <- <-]. lia.
  - assert (Hrs : Forall prec_ok (map fmt ch)).
    { apply List.Forall_forall. intros r (c & <- & Hc)%in_map_iff.
      rewrite List.Forall_forall in IH. by apply IH. }
    intros t p H. cbn [fmt] in H. unfold mbind, Res_bind in H.
    repeat case_match; simplify_eq.
    all: try (change UNARY_PRECEDENCE with 7; lia).
    all: try match goal with
             | Hp : BIN_PRECEDENCE !! _ = Some ?q |- _ <= ?q <= _ =>
                 pose proof (BIN_PRECEDENCE_range _ _ Hp); lia
             end.
    all: try match goal with
             | |- _ <= default 1 (BIN_PRECEDENCE !! ?op) <= _ =>
                 destruct (BIN_PRECEDENCE !! op) as [q|] eqn:Hq; cbn;
                   [pose proof (BIN_PRECEDENCE_range _ _ Hq)|]; lia
             end.
    all: try match goal with
             | Hs : sequence (map fmt _) = Ok ?a |- _ <= max_prec ?a <= _ =>
                 apply max_prec_ok; by apply (sequence_prec_ok _ _ Hrs Hs)
             end.
    all: match goal with
         | Hc : nth_error (map fmt _) _ = Some (Ok (?s, ?q)) |- _ <= ?q <= _ =>
             by apply (child_prec_ok _ _ _ IH Hc s q)
         end.
Qed.

Lemma fmt_precedence_range_witness :
  fmt (FmtExample.bin (FmtExample.ID "a") "+" (FmtExample.ID "b")) = Ok ("a + b", 7)
  /\ 0 <= 7 <= 100.
Proof.
  refine (conj eq_refl _).
  exact (fmt_precedence_range
           (FmtExample.bin (FmtExample.ID "a") "+" (FmtExample.ID "b")) "a + b" 7 eq_refl).
Defined.

(** ** Counting records and arguments *)

Lemma find_existsb (p : Node -> bool) (l : list Node) :
  existsb p l = match find p l with Some _ => true | None => false end.
Proof.
  induction l as [|x l IH]; [reflexivity|]. cbn [existsb find].
  destruct (p x); [reflexivity|exact IH].
Qed.

(** X20: [_extract_rule_params] returns one record for the leading
    [cvl_type], if there is one, and one for each [param] child that has a
    [cvl_type] child; a [param] without type contributes nothing, and
    nothing else does. *)
Theorem extract_rule_params_count (d : string) (children : list Node) :
  length (_extract_rule_params (Some (Tree d children))) =
    ((if existsb (is_tree_named "cvl_type") children then 1 else 0)
     + length (List.filter typed_param children))%nat.
Proof.
  unfold _extract_rule_params. cbn [tree_children]. cbv zeta.
  rewrite length_app, find_existsb. f_equal.
  - by destruct (find (is_tree_named "cvl_type") children).
  - induction children as [|ch children IH]; [reflexivity|].
    cbn [flat_map List.filter]. rewrite length_app, IH. unfold typed_param at 2.
    destruct (is_tree_named "param" ch); [|reflexivity]. cbn [andb].
    rewrite find_existsb.
    by destruct (find (is_tree_named "cvl_type") (tree_children ch)).
Qed.

Lemma comma_runs_empty (l : list Node) :
  comma_runs is_comma l [] = [] <-> List.filter not_comma l = [].
Proof.
  pose proof (comma_runs_concat l []) as Hc.
  pose proof (comma_runs_nonempty l []) as Hn. cbn [app] in Hc. split.
  - intros Hruns. by rewrite Hruns in Hc.
  - intros Hf. rewrite Hf in Hc.
    destruct (comma_runs is_comma l []) as [|run runs]; [done|].
    apply Forall_cons_1 in Hn as [Hrun _]. cbn [concat] in Hc.
    by destruct run.
Qed.

Lemma comma_runs_length (l cur : list Node) :
  (length (comma_runs is_comma l cur) <= length cur + length (List.filter not_comma l))%nat.
Proof.
  revert cur. induction l as [|x l IH]; intros cur; cbn [comma_runs List.filter].
  - destruct cur; cbn; lia.
  - unfold not_comma at 1. destruct (is_comma x); cbn [negb].
    + specialize (IH []). destruct cur; cbn [length] in *; lia.
    + specialize (IH (cur ++ [x])). rewrite length_app in IH. cbn [length] in *. lia.
Qed.

(** X21: when every child of [exprs] is a token, the splitter returns no
    argument exactly when there is no token other than commas, and never
    more arguments than there are such tokens. *)
Theorem split_call_args_size (d : string) (children : list Node)
    (sol_symbols : SymbolTable) :
  existsb is_Tree children = false ->
  (_split_call_args (Some (Tree d children)) sol_symbols = []
   <-> List.filter not_comma children = [])
  /\ (length (_split_call_args (Some (Tree d children)) sol_symbols)
      <= length (List.filter not_comma children))%nat.
Proof.
  intros Hno. rewrite split_tokens by done.
  destruct (existsb is_comma children) eqn:Hcomma.
  - split.
    + rewrite <- comma_runs_empty.
      destruct (comma_runs is_comma children []); cbn [map]; by split.
    + rewrite length_map. apply (comma_runs_length children []).
  - rewrite filter_no_comma by done.
    destruct (forallb _is_atom_token children) eqn:Hatom.
    + split; [|by rewrite length_map]. by destruct children.
    + destruct children as [|x l]; [discriminate|]. split; [by split|]. cbn. lia.
Qed.

Lemma split_call_args_size_witness :
  existsb is_Tree [Token "COMMA" ","; Token "COMMA" ","] = false
  /\ _split_call_args (Some (Tree "exprs" [Token "COMMA" ","; Token "COMMA" ","]))
       ScanExample.sym = [].
Proof.
  refine (conj eq_refl _).
  exact (proj2 (proj1 (split_call_args_size "exprs" [Token "COMMA" ","; Token "COMMA" ","]
                         ScanExample.sym eq_refl)) eq_refl).
Defined.

(** ** Aggregate attributes in the scan and in the renderer *)

Lemma lower_truthy (s : string) : PyStr.truthy (lower s) = PyStr.truthy s.
Proof. by destruct s. Qed.

(** X22: for a [special_var_attribute_call] with a named base and a [SUM]
    attribute token, the scan records and renders the attribute in lower
    case, while the renderer keeps it as written: the two texts differ only
    by that lowering. *)
Theorem special_var_scan_lowers (sv : Node) (d : CallDescriptor) (n a : Node)
    (sol_symbols : SymbolTable) :
  special_var_entry sv = Some d ->
  head (scan_values (is_token_typed "ID") sv) = Some n ->
  head (scan_values (is_token_typed "SUM") sv) = Some a ->
  token_truthy a = true ->
  rendered d = token_value n +:+ "." +:+ lower (token_value a)
  /\ d_attr d = Some (Some (lower (token_value a)))
  /\ _flatten_expr_with_symbols sol_symbols sv
     = token_value n +:+ "." +:+ token_value a.
Proof.
  unfold special_var_entry. intros Hentry Hn Ha Hta.
  destruct (is_tree_named "special_var_attribute_call" sv) eqn:Hsv; [|discriminate].
  rewrite Hn, Ha, Hta in Hentry. cbn [negb] in Hentry.
  destruct (token_truthy n) eqn:Htn; [|discriminate].
  assert (Hlow : PyStr.truthy (lower (token_value a)) = true)
    by (by rewrite lower_truthy).
  rewrite Hlow in Hentry. unfold token_truthy in Htn. rewrite Htn in Hentry.
  cbn [negb] in Hentry. injection Hentry as <-. cbn [rendered d_attr].
  split_and!; try reflexivity.
  destruct (is_tree_named_inv _ _ Hsv) as [children ->].
  cbn [_flatten_expr_with_symbols String.eqb Ascii.eqb Bool.eqb].
  rewrite Hn, Ha.
  unfold token_truthy in *. by rewrite Htn, Hta.
Qed.

Lemma special_var_scan_lowers_witness :
  special_var_entry
    (Tree "special_var_attribute_call" [Token "ID" "balances"; Token "SUM" "SUM"])
  = Some {| d_name := "balances"; d_args := []; decl_kind := state_var_attr;
            d_attr := Some (Some "sum"); rendered := "balances.sum" |}
  /\ rendered {| d_name := "balances"; d_args := []; decl_kind := state_var_attr;
                 d_attr := Some (Some "sum"); rendered := "balances.sum" |}
     = "balances" +:+ "." +:+ lower "SUM"
  /\ _flatten_expr_with_symbols ScanExample.sym
       (Tree "special_var_attribute_call" [Token "ID" "balances"; Token "SUM" "SUM"])
     = "balances" +:+ "." +:+ "SUM".
Proof.
  refine (conj eq_refl _).
  pose proof (special_var_scan_lowers
                (Tree "special_var_attribute_call"
                   [Token "ID" "balances"; Token "SUM" "SUM"])
                _ (Token "ID" "balances") (Token "SUM" "SUM") ScanExample.sym
                eq_refl eq_refl eq_refl eq_refl) as (H1 & _ & H3).
  exact (conj H1 H3).
Defined.

(** ** The formatter: quantifiers and casts *)

(** X23: an [expr] node that starts with a [QUANTIFIER] token and has at
    least four children is formatted [<quantifier> (<type> <var>) <body>]
    at level 100: the body is never parenthesised and children after the
    fourth are ignored. *)
Theorem fmt_quantifier (q : string) (type_node var_tok body_node : Node)
    (rest : list Node) (type_txt var_txt body_txt : string) (tp vp bp : Z) :
  fmt type_node = Ok (type_txt, tp) ->
  fmt var_tok = Ok (var_txt, vp) ->
  fmt body_node = Ok (body_txt, bp) ->
  fmt (Tree "expr" (Token "QUANTIFIER" q :: type_node :: var_tok :: body_node :: rest))
  = Ok (q +:+ " (" +:+ type_txt +:+ " " +:+ var_txt +:+ ") " +:+ body_txt, 100).
Proof.
  intros Ht Hv Hb. fmt_step. cbn [token_value]. by rewrite Ht, Hv, Hb.
Qed.

Lemma fmt_quantifier_witness :
  fmt (Token "T" "uint") = Ok ("uint", 100)
  /\ fmt (Token "ID" "x") = Ok ("x", 100)
  /\ fmt (FmtExample.lbin (FmtExample.ID "p") "=>" (FmtExample.ID "q")) = Ok ("p => q", 3)
  /\ fmt (Tree "expr" [Token "QUANTIFIER" "forall"; Token "T" "uint"; Token "ID" "x";
                       FmtExample.lbin (FmtExample.ID "p") "=>" (FmtExample.ID "q")])
     = Ok ("forall" +:+ " (" +:+ "uint" +:+ " " +:+ "x" +:+ ") " +:+ "p => q", 100).
Proof.
  refine (conj eq_refl (conj eq_refl (conj eq_refl _))).
  exact (fmt_quantifier "forall" (Token "T" "uint") (Token "ID" "x")
           (FmtExample.lbin (FmtExample.ID "p") "=>" (FmtExample.ID "q")) []
           "uint" "x" "p => q" 100 100 3 eq_refl eq_refl eq_refl).
Defined.

(** X24: a [cast_function_expr] with a [cast_function] child of non-empty
    text and an [INTEGER_LITERAL] token is formatted [<cast>(<literal>)] at
    level 10, from the first such child and the first such token; when
    either is missing it is formatted exactly as a [function_call] with the
    same children. *)
Theorem fmt_cast (children : list Node) :
  (forall cf lit,
      find (is_tree_named "cast_function") children = Some cf ->
      find (is_token_typed "INTEGER_LITERAL") children = Some lit ->
      _flatten_tokens_only cf <> "" ->
      fmt (Tree "cast_function_expr" children)
      = Ok (_flatten_tokens_only cf +:+ "(" +:+ token_value lit +:+ ")", 10))
  /\ (find (is_tree_named "cast_function") children = None
      \/ find (is_token_typed "INTEGER_LITERAL") children = None ->
      fmt (Tree "cast_function_expr" children) = fmt (Tree "function_call" children)).
Proof.
  split.
  - intros cf lit Hcf Hlit Hne.
    cbn [fmt String.eqb Ascii.eqb Bool.eqb andb orb]. rewrite Hcf, Hlit.
    cbn [option_map]. destruct (_flatten_tokens_only cf) as [|c s]; [done|].
    cbn [PyStr.truthy]. by rewrite PyStrFacts.app_assoc.
  - intros Hmiss.
    cbn [fmt String.eqb Ascii.eqb Bool.eqb andb orb].
    destruct Hmiss as [-> | ->]; cbn [option_map]; [reflexivity|].
    by destruct (find (is_tree_named "cast_function") children).
Qed.

Lemma fmt_cast_witness :
  find (is_tree_named "cast_function")
    [Tree "cast_function" [Token "T" "address"]; Token "INTEGER_LITERAL" "0"]
  = Some (Tree "cast_function" [Token "T" "address"])
  /\ find (is_token_typed "INTEGER_LITERAL")
       [Tree "cast_function" [Token "T" "address"]; Token "INTEGER_LITERAL" "0"]
     = Some (Token "INTEGER_LITERAL" "0")
  /\ _flatten_tokens_only (Tree "cast_function" [Token "T" "address"]) <> ""
  /\ fmt (Tree "cast_function_expr"
            [Tree "cast_function" [Token "T" "address"]; Token "INTEGER_LITERAL" "0"])
     = Ok (_flatten_tokens_only (Tree "cast_function" [Token "T" "address"])
             +:+ "(" +:+ token_value (Token "INTEGER_LITERAL" "0") +:+ ")", 10).
Proof.
  assert (Hne : _flatten_tokens_only (Tree "cast_function" [Token "T" "address"]) <> "")
    by discriminate.
  refine (conj eq_refl (conj eq_refl (conj Hne _))).
  exact (proj1 (fmt_cast [Tree "cast_function" [Token "T" "address"];
                          Token "INTEGER_LITERAL" "0"]) _ _ eq_refl eq_refl Hne).
Defined.
